(** * Hyrise logical query plan: the join node and the calibration
      predicate configuration

    A shallow embedding of [src/lib/logical_query_plan/join_node.cpp] and of
    the comparison operators of [CalibrationQueryGeneratorPredicateConfiguration],
    with the properties the specification states about them. *)

From Stdlib Require Import ZArith String Ascii Bool Lia.
From Stdlib Require Import SpecFloat.
From stdpp Require Import base option list gmap sets strings countable.

Set Warnings "-clear-no-such-hyp".

Local Open Scope string_scope.
Local Open Scope list_scope.
Local Open Scope Z_scope.

(** ** Pointers, assertions and undefined behaviour *)

(** A [std::shared_ptr<A>] is either null or points at a value. *)
Definition shared_ptr (A : Type) : Type := option A.
Definition nullptr {A : Type} : shared_ptr A := None.

(** What a call does: it returns a value, it throws because an [Assert] or
    [Fail] of [utils/assert.hpp] fired (the specification calls this an
    InvariantViolation), or it runs into undefined behaviour of C++
    (dereferencing a null pointer, [front()] of an empty vector). *)
Inductive outcome (A : Type) : Type :=
| Returns (a : A)
| InvariantViolation (message : string)
| Undefined.
Arguments Returns {A} a.
Arguments InvariantViolation {A} message.
Arguments Undefined {A}.

Definition outcome_bind {A B : Type} (f : A → outcome B) (m : outcome A) : outcome B :=
  match m with
  | Returns a => f a
  | InvariantViolation s => InvariantViolation s
  | Undefined => Undefined
  end.

#[global] Instance outcome_mbind : MBind outcome := @outcome_bind.
#[global] Instance outcome_mret : MRet outcome := @Returns.

(** [Assert(condition, message)]. *)
Definition Assert (condition : bool) (message : string) : outcome unit :=
  if condition then Returns tt else InvariantViolation message.

(** [*p] and [p->...] on a shared pointer. *)
Definition deref {A : Type} (p : shared_ptr A) : outcome A :=
  match p with
  | Some a => Returns a
  | None => Undefined
  end.

(** [v.front()] of a [std::vector]; undefined on an empty vector. *)
Definition vector_front {A : Type} (v : list A) : outcome A :=
  match v with
  | x :: _ => Returns x
  | [] => Undefined
  end.

(** [std::copy(src.begin(), src.end(), dst.begin() + pos)]: the elements of
    [src] overwrite [dst] from index [pos] on; the iterator one past the last
    element written is returned next to the destination. *)
Fixpoint std_copy {A : Type} (src dst : list A) (pos : nat) : list A * nat :=
  match src with
  | [] => (dst, pos)
  | x :: src' => std_copy src' (<[pos := x]> dst) (S pos)
  end.

(** ** Expressions *)

(** Identity of an LQP node (its address). *)
Definition NodeId : Type := N.

(** Modelled from the spec: [ColumnID] and [ColumnID::base_type] are declared
    in [types.hpp], which is not among the sources.  A column id is an
    unsigned integer of [ColumnID_bits] bits; Hyrise uses [uint16_t]. *)
Definition ColumnID : Type := Z.
Definition ColumnID_bits : Z := 16.
Definition to_ColumnID_base_type (z : Z) : Z := z mod 2 ^ ColumnID_bits.

(** Modelled from the spec: the conditions of a binary predicate (section 3;
    the enum [PredicateCondition] of [types.hpp] is not among the sources). *)
Inductive PredicateCondition : Type :=
| Equals | NotEquals | LessThan | LessThanEquals | GreaterThan
| GreaterThanEquals | Like | NotLike | In | NotIn | Between.

Inductive LogicalOperator : Type := And | Or.

(** Modelled from the spec: the expression variants of section 3 (the
    expression classes are not among the sources). *)
Inductive Expression : Type :=
| ValueExpression (value : Z)
| LQPColumnExpression (original_node : NodeId) (original_column_id : N)
| BinaryPredicateExpression (predicate_condition : PredicateCondition)
    (left_operand right_operand : Expression)
| LogicalExpression (logical_operator : LogicalOperator) (left right : Expression)
| BetweenExpression (value lower_bound upper_bound : Expression).

#[global] Instance PredicateCondition_eq_dec : EqDecision PredicateCondition.
Proof. solve_decision. Defined.
#[global] Instance LogicalOperator_eq_dec : EqDecision LogicalOperator.
Proof. solve_decision. Defined.
#[global] Instance Expression_eq_dec : EqDecision Expression.
Proof. solve_decision. Defined.

Definition PredicateCondition_index (c : PredicateCondition) : N :=
  match c with
  | Equals => 0 | NotEquals => 1 | LessThan => 2 | LessThanEquals => 3
  | GreaterThan => 4 | GreaterThanEquals => 5 | Like => 6 | NotLike => 7
  | In => 8 | NotIn => 9 | Between => 10
  end%N.

Definition PredicateCondition_of_index (n : N) : PredicateCondition :=
  match n with
  | 0 => Equals | 1 => NotEquals | 2 => LessThan | 3 => LessThanEquals
  | 4 => GreaterThan | 5 => GreaterThanEquals | 6 => Like | 7 => NotLike
  | 8 => In | 9 => NotIn | _ => Between
  end%N.

Fixpoint Expression_encode (e : Expression) : gen_tree (Z + N) :=
  match e with
  | ValueExpression v => GenNode 0 [GenLeaf (inl v)]
  | LQPColumnExpression n c => GenNode 1 [GenLeaf (inr n); GenLeaf (inr c)]
  | BinaryPredicateExpression c l r =>
      GenNode 2 [GenLeaf (inr (PredicateCondition_index c)); Expression_encode l; Expression_encode r]
  | LogicalExpression o l r =>
      GenNode 3 [GenLeaf (inr (match o with And => 0 | Or => 1 end)%N);
                 Expression_encode l; Expression_encode r]
  | BetweenExpression v l u =>
      GenNode 4 [Expression_encode v; Expression_encode l; Expression_encode u]
  end.

Fixpoint Expression_decode (t : gen_tree (Z + N)) : Expression :=
  match t with
  | GenNode 0 [GenLeaf (inl v)] => ValueExpression v
  | GenNode 1 [GenLeaf (inr n); GenLeaf (inr c)] => LQPColumnExpression n c
  | GenNode 2 [GenLeaf (inr c); l; r] =>
      BinaryPredicateExpression (PredicateCondition_of_index c)
        (Expression_decode l) (Expression_decode r)
  | GenNode 3 [GenLeaf (inr o); l; r] =>
      LogicalExpression (match o with 0%N => And | _ => Or end)
        (Expression_decode l) (Expression_decode r)
  | GenNode 4 [v; l; u] =>
      BetweenExpression (Expression_decode v) (Expression_decode l) (Expression_decode u)
  | _ => ValueExpression 0
  end.

#[global] Instance Expression_countable : Countable Expression.
Proof.
  refine (inj_countable' Expression_encode Expression_decode _).
  intros e.
  induction e as [v|n c|c l IHl r IHr|o l IHl r IHr|v IHv l IHl u IHu]; simpl.
  - reflexivity.
  - reflexivity.
  - rewrite IHl, IHr. by destruct c.
  - rewrite IHl, IHr. by destruct o.
  - by rewrite IHv, IHl, IHu.
Defined.

(** An [ExpressionUnorderedSet]. *)
Abbreviation ExpressionUnorderedSet := (gset Expression).

(** Modelled from the spec: a unique constraint is a set of column
    expressions and the constraints of a node are a set of such sets
    ([ExpressionsConstraintDefinitions] is declared outside the sources). *)
Abbreviation ExpressionsConstraintDefinition := (gset Expression).
Abbreviation ExpressionsConstraintDefinitions := (gset (gset Expression)).

(** [std::dynamic_pointer_cast<BinaryPredicateExpression>(e)]: null unless
    [e] is a binary predicate. *)
Definition dynamic_pointer_cast_BinaryPredicateExpression (e : Expression)
  : shared_ptr (PredicateCondition * Expression * Expression) :=
  match e with
  | BinaryPredicateExpression c l r => Some (c, l, r)
  | _ => nullptr
  end.

(** ** LQP nodes *)

Inductive JoinMode : Type :=
| Inner | Left | Right | FullOuter | Cross | Semi | AntiNullAsTrue | AntiNullAsFalse.

#[global] Instance JoinMode_eq_dec : EqDecision JoinMode.
Proof. solve_decision. Defined.

(** The virtual interface of [AbstractLQPNode] that a join node calls on its
    inputs.  The node kinds behind it are not among the sources, so each
    method is whatever the input at hand answers. *)
Record AbstractLQPNode : Type := {
  node_column_expressions : outcome (list (shared_ptr Expression));
  node_is_column_nullable : ColumnID → outcome bool;
  node_constraints : outcome (shared_ptr ExpressionsConstraintDefinitions);
  node_has_unique_constraint : ExpressionUnorderedSet → outcome bool
}.

(** A [JoinNode]: its mode, its [node_expressions] (the join predicates) and
    its two inputs, which are null until the caller wires them. *)
Record JoinNode : Type := {
  join_mode : JoinMode;
  node_expressions : list Expression;
  left_input : shared_ptr AbstractLQPNode;
  right_input : shared_ptr AbstractLQPNode
}.

Definition join_predicates (n : JoinNode) : list Expression := node_expressions n.

Definition set_left_input (n : JoinNode) (l : shared_ptr AbstractLQPNode) : JoinNode :=
  {| join_mode := join_mode n; node_expressions := node_expressions n;
     left_input := l; right_input := right_input n |}.

Definition set_right_input (n : JoinNode) (r : shared_ptr AbstractLQPNode) : JoinNode :=
  {| join_mode := join_mode n; node_expressions := node_expressions n;
     left_input := left_input n; right_input := r |}.

(** *** Constructors *)

(** [JoinNode::JoinNode(const JoinMode)]. *)
Definition JoinNode_new (init_join_mode : JoinMode) : outcome JoinNode :=
  let this := {| join_mode := init_join_mode; node_expressions := [];
                 left_input := nullptr; right_input := nullptr |} in
  _ ← Assert (bool_decide (join_mode this = Cross))
        "Only Cross Joins can be constructed without predicate";
  Returns this.

(** [JoinNode::JoinNode(const JoinMode, const std::vector<...>&)]. *)
Definition JoinNode_new_predicates (init_join_mode : JoinMode)
    (init_join_predicates : list Expression) : outcome JoinNode :=
  let this := {| join_mode := init_join_mode; node_expressions := init_join_predicates;
                 left_input := nullptr; right_input := nullptr |} in
  _ ← Assert (bool_decide (join_mode this ≠ Cross)) "Cross Joins take no predicate";
  _ ← Assert (negb (bool_decide (join_predicates this = [])))
        "Non-Cross Joins require predicates";
  Returns this.

(** [JoinNode::JoinNode(const JoinMode, const std::shared_ptr<AbstractExpression>&)]
    delegates to the vector constructor. *)
Definition JoinNode_new_predicate (init_join_mode : JoinMode)
    (join_predicate : Expression) : outcome JoinNode :=
  JoinNode_new_predicates init_join_mode [join_predicate].

(** *** Output columns *)

Definition column_expressions (n : JoinNode) : outcome (list (shared_ptr Expression)) :=
  match left_input n, right_input n with
  | Some l, Some r =>
      left_expressions ← node_column_expressions l;
      right_expressions ← node_column_expressions r;
      let output_both_inputs :=
        bool_decide (join_mode n ≠ Semi) && bool_decide (join_mode n ≠ AntiNullAsTrue)
        && bool_decide (join_mode n ≠ AntiNullAsFalse) in
      let column_expressions :=
        resize (length left_expressions
                + (if output_both_inputs then length right_expressions else 0))%nat
               nullptr [] in
      let '(column_expressions, right_begin) :=
        std_copy left_expressions column_expressions 0 in
      let column_expressions :=
        if output_both_inputs
        then fst (std_copy right_expressions column_expressions right_begin)
        else column_expressions in
      Returns column_expressions
  | _, _ =>
      InvariantViolation
        "Both inputs need to be set to determine a JoinNode's output expressions"
  end.

(** *** Nullability *)

Definition is_column_nullable (n : JoinNode) (column_id : ColumnID) : outcome bool :=
  match left_input n, right_input n with
  | Some l, Some r =>
      left_expressions ← node_column_expressions l;
      let left_input_column_count := Z.of_nat (length left_expressions) in
      let column_is_from_left_input := column_id <? left_input_column_count in
      if bool_decide (join_mode n = Left) && negb column_is_from_left_input then Returns true
      else if bool_decide (join_mode n = Right) && column_is_from_left_input then Returns true
      else if bool_decide (join_mode n = FullOuter) then Returns true
      else if column_is_from_left_input then node_is_column_nullable l column_id
      else
        let right_column_id :=
          to_ColumnID_base_type
            (column_id - to_ColumnID_base_type left_input_column_count) in
        node_is_column_nullable r right_column_id
  | _, _ => InvariantViolation "Need both inputs to determine nullability"
  end.

(** *** Unique constraints *)

(** Modelled from the spec: [AbstractLQPNode::forward_constraints] is defined
    in [abstract_lqp_node.cpp], which is not among the sources.  For a semi
    join the specification has it forward the constraints of the left input
    (section 4.5, "forward U_L"; scenario 5), as the comment above its call
    in [JoinNode::constraints] says; a missing input is an invariant
    violation (section 7). *)
Definition forward_constraints (n : JoinNode)
  : outcome (shared_ptr ExpressionsConstraintDefinitions) :=
  match left_input n with
  | Some l => node_constraints l
  | None => InvariantViolation "Cannot forward constraints without an input"
  end.

(** [out->emplace(c)]: [c] is inserted unless an equal element is already
    there.  The loop
    [for (it = src->begin(); it != src->end();) out->emplace(std::move(src->extract(it++).value()))]
    does so for every element of [src], in the iteration order of the
    container.  The elements are moved out of the set the input handed
    over; what that does to the input is outside this model, where an
    input answers [constraints()] with a value. *)
Definition emplace (out : ExpressionsConstraintDefinitions)
    (c : ExpressionsConstraintDefinition) : ExpressionsConstraintDefinitions :=
  if bool_decide (c ∈ out) then out else {[c]} ∪ out.

Definition emplace_all (src out : ExpressionsConstraintDefinitions)
  : ExpressionsConstraintDefinitions :=
  foldl emplace out (elements src).

(** [JoinNode::constraints].  A returned [None] is a null [shared_ptr]
    (the [return {};] of line 86), [Some ∅] a pointer to an empty set. *)
Definition constraints (n : JoinNode)
  : outcome (shared_ptr ExpressionsConstraintDefinitions) :=
  let output_constraints : ExpressionsConstraintDefinitions := ∅ in
  if bool_decide (join_mode n = Semi) then forward_constraints n
  else if bool_decide (1 < length (join_predicates n))%nat then Returns (Some ∅)
  else
    front ← vector_front (join_predicates n);
    match dynamic_pointer_cast_BinaryPredicateExpression front with
    | None => Returns nullptr
    | Some (predicate_condition, left_operand, right_operand) =>
        if bool_decide (predicate_condition ≠ Equals) then Returns nullptr
        else
          l ← deref (left_input n);
          left_operand_unique ← node_has_unique_constraint l {[left_operand]};
          r ← deref (right_input n);
          right_operand_unique ← node_has_unique_constraint r {[right_operand]};
          match join_mode n with
          | Inner =>
              if left_operand_unique && right_operand_unique then
                left_ptr ← node_constraints l;
                right_ptr ← node_constraints r;
                left_constraints ← deref left_ptr;
                let output_constraints := emplace_all left_constraints output_constraints in
                right_constraints ← deref right_ptr;
                let output_constraints := emplace_all right_constraints output_constraints in
                Returns (Some output_constraints)
              else if left_operand_unique then node_constraints r
              else if right_operand_unique then node_constraints l
              else Returns (Some output_constraints)
          | Left => Returns (Some output_constraints)
          | Right => Returns (Some output_constraints)
          | FullOuter => Returns (Some output_constraints)
          | Cross => Returns (Some output_constraints)
          | Semi => InvariantViolation "JoinMode::Semi should already be handled."
          | AntiNullAsTrue => Returns (Some output_constraints)
          | AntiNullAsFalse => Returns (Some output_constraints)
          end
    end.

(** *** Shallow copy and shallow equality *)

(** An [LQPNodeMapping]: a hash map from node identities to node identities. *)
Abbreviation LQPNodeMapping := (gmap NodeId NodeId).

(** Modelled from the spec: [expression_utils.cpp] is not among the sources.
    A copy of an expression adapted to a different LQP has its column
    references rewritten through the node mapping (section 4.1,
    [deep_copy(mapping)]); a column whose node the mapping does not know
    cannot be rewritten and is an error (section 7). *)
Fixpoint expression_copy_and_adapt_to_different_lqp (e : Expression)
    (node_mapping : LQPNodeMapping) : outcome Expression :=
  match e with
  | ValueExpression v => Returns (ValueExpression v)
  | LQPColumnExpression node column =>
      match node_mapping !! node with
      | Some node' => Returns (LQPColumnExpression node' column)
      | None => InvariantViolation "Couldn't find referenced node in NodeMapping"
      end
  | BinaryPredicateExpression c l r =>
      l' ← expression_copy_and_adapt_to_different_lqp l node_mapping;
      r' ← expression_copy_and_adapt_to_different_lqp r node_mapping;
      Returns (BinaryPredicateExpression c l' r')
  | LogicalExpression o l r =>
      l' ← expression_copy_and_adapt_to_different_lqp l node_mapping;
      r' ← expression_copy_and_adapt_to_different_lqp r node_mapping;
      Returns (LogicalExpression o l' r')
  | BetweenExpression v l u =>
      v' ← expression_copy_and_adapt_to_different_lqp v node_mapping;
      l' ← expression_copy_and_adapt_to_different_lqp l node_mapping;
      u' ← expression_copy_and_adapt_to_different_lqp u node_mapping;
      Returns (BetweenExpression v' l' u')
  end.

(** Modelled from the spec: the list version of the above. *)
Fixpoint expressions_copy_and_adapt_to_different_lqp (es : list Expression)
    (node_mapping : LQPNodeMapping) : outcome (list Expression) :=
  match es with
  | [] => Returns []
  | e :: es' =>
      e' ← expression_copy_and_adapt_to_different_lqp e node_mapping;
      es'' ← expressions_copy_and_adapt_to_different_lqp es' node_mapping;
      Returns (e' :: es'')
  end.

(** Modelled from the spec: structural equality of two expressions under a
    node mapping (section 4.1): the left one, with its column references
    rewritten through the mapping, is the right one. *)
Definition expression_equal_to_expression_in_different_lqp (e_left e_right : Expression)
    (node_mapping : LQPNodeMapping) : outcome bool :=
  adapted ← expression_copy_and_adapt_to_different_lqp e_left node_mapping;
  Returns (bool_decide (adapted = e_right)).

(** Modelled from the spec: two expression lists are equal under a mapping
    when they have the same length and are equal position by position. *)
Fixpoint expressions_equal_to_expressions_in_different_lqp (es_left es_right : list Expression)
    (node_mapping : LQPNodeMapping) : outcome bool :=
  match es_left, es_right with
  | [], [] => Returns true
  | e_left :: es_left', e_right :: es_right' =>
      b ← expression_equal_to_expression_in_different_lqp e_left e_right node_mapping;
      if (b : bool)
      then expressions_equal_to_expressions_in_different_lqp es_left' es_right' node_mapping
      else Returns false
  | _, _ => Returns false
  end.

(** [JoinNode::_on_shallow_copy]; [JoinNode::make] runs the constructor. *)
Definition _on_shallow_copy (n : JoinNode) (node_mapping : LQPNodeMapping) : outcome JoinNode :=
  if negb (bool_decide (join_predicates n = [])) then
    predicates ← expressions_copy_and_adapt_to_different_lqp (join_predicates n) node_mapping;
    JoinNode_new_predicates (join_mode n) predicates
  else JoinNode_new (join_mode n).

(** [JoinNode::_on_shallow_equals]. *)
Definition _on_shallow_equals (n rhs : JoinNode) (node_mapping : LQPNodeMapping) : outcome bool :=
  let join_node := rhs in
  if bool_decide (join_mode n ≠ join_mode join_node) then Returns false
  else expressions_equal_to_expressions_in_different_lqp
         (join_predicates n) (join_predicates join_node) node_mapping.

(** Modelled from the spec: [AbstractLQPNode::shallow_copy] and
    [AbstractLQPNode::shallow_equals] are not among the sources.  The copy is
    a new node of the same kind whose inputs the caller wires; two nodes are
    shallowly equal when they are of the same kind (both are join nodes
    here) and the kind-specific comparison succeeds (section 4.2). *)
Definition shallow_copy (n : JoinNode) (node_mapping : LQPNodeMapping) : outcome JoinNode :=
  _on_shallow_copy n node_mapping.

Definition shallow_equals (n rhs : JoinNode) (node_mapping : LQPNodeMapping) : outcome bool :=
  _on_shallow_equals n rhs node_mapping.

(** The nodes that the column references of an expression name. *)
Fixpoint referenced_nodes (e : Expression) : gset NodeId :=
  match e with
  | ValueExpression _ => ∅
  | LQPColumnExpression node _ => {[node]}
  | BinaryPredicateExpression _ l r => referenced_nodes l ∪ referenced_nodes r
  | LogicalExpression _ l r => referenced_nodes l ∪ referenced_nodes r
  | BetweenExpression v l u => referenced_nodes v ∪ referenced_nodes l ∪ referenced_nodes u
  end.

(** The identity mapping on a set of nodes. *)
Definition identity_mapping (nodes : gset NodeId) : LQPNodeMapping :=
  set_to_map (λ node, (node, node)) nodes.

(** *** Description and shallow hash *)

(** [JoinNode::description].  What the stream holds is a string and [<<]
    appends to it.  The printer of a join mode ([operator<<] of
    [constant_mappings.hpp]), [_expression_description_mode] of the node
    base class and the [description] of an expression are not among the
    sources; they are taken as they come. *)
Definition description {DescriptionMode ExpressionDescriptionMode : Type}
    (join_mode_to_string : JoinMode → string)
    (_expression_description_mode : DescriptionMode → ExpressionDescriptionMode)
    (expression_description : Expression → ExpressionDescriptionMode → string)
    (n : JoinNode) (mode : DescriptionMode) : string :=
  let expression_mode := _expression_description_mode mode in
  let stream := "" in
  let stream := (stream +:+ "[Join] Mode: ") +:+ join_mode_to_string (join_mode n) in
  let stream :=
    foldl (λ stream predicate,
             ((stream +:+ " [") +:+ expression_description predicate expression_mode)
             +:+ "]")
          stream (join_predicates n) in
  stream.

(** [JoinNode::_on_shallow_hash]: [boost::hash_value] of the join mode,
    whatever that hash function is. *)
Definition _on_shallow_hash (hash_value : JoinMode → N) (n : JoinNode) : N :=
  hash_value (join_mode n).

(** ** The calibration predicate configuration *)

(** C++ overloads [operator<] and [operator==] per type. *)
Class Less (A : Type) := less : A → A → bool.
Class EqualTo (A : Type) := equal_to : A → A → bool.

(** [std::string]: lexicographic on the bytes, a proper prefix comes first. *)
#[global] Instance string_less : Less string := String.ltb.
#[global] Instance string_equal_to : EqualTo string := String.eqb.

(** Unsigned integers: [size_t], and the underlying values of enum classes. *)
#[global] Instance N_less : Less N := N.ltb.
#[global] Instance N_equal_to : EqualTo N := N.eqb.

(** [bool]: [false < true]. *)
#[global] Instance bool_less : Less bool := λ a b, negb a && b.
#[global] Instance bool_equal_to : EqualTo bool := Bool.eqb.

(** [float]: the IEEE 754 comparisons, false whenever an operand is NaN.
    The values of a C++ [float] are the [spec_float]s that are valid for
    precision 24 and maximal exponent 128; the comparisons do not depend on
    the format. *)
Definition float : Type := spec_float.
#[global] Instance float_less : Less float := SFltb.
#[global] Instance float_equal_to : EqualTo float := SFeqb.

(** [std::optional<T>]: an empty optional is less than every engaged one and
    equal to an empty one only. *)
#[global] Instance optional_less {A : Type} `{Less A} : Less (option A) :=
  λ lhs rhs,
    match rhs with
    | None => false
    | Some r => match lhs with None => true | Some l => less l r end
    end.
#[global] Instance optional_equal_to {A : Type} `{EqualTo A} : EqualTo (option A) :=
  λ lhs rhs,
    match lhs, rhs with
    | Some l, Some r => equal_to l r
    | None, None => true
    | _, _ => false
    end.

(** [std::tuple]: a tuple is its first component and the tuple of the rest;
    [operator<] answers [x < y || (!(y < x) && rest_x < rest_y)] and
    [operator==] answers [x == y && rest_x == rest_y]; on the empty tuple
    they answer [false] and [true]. *)
#[global] Instance tuple_nil_less : Less unit := λ _ _, false.
#[global] Instance tuple_nil_equal_to : EqualTo unit := λ _ _, true.
#[global] Instance tuple_cons_less {A B : Type} `{Less A} `{Less B} : Less (A * B) :=
  λ t u, less t.1 u.1 || (negb (less u.1 t.1) && less t.2 u.2).
#[global] Instance tuple_cons_equal_to {A B : Type} `{EqualTo A} `{EqualTo B}
  : EqualTo (A * B) :=
  λ t u, equal_to t.1 u.1 && equal_to t.2 u.2.

(** Modelled from the spec: the enums [DataType] and [EncodingType] are
    declared outside the sources (section 6 lists their tags).  A value of
    an enum class is represented by its underlying integer, which is what
    the built-in [<] and [==] compare. *)
Definition DataType : Type := N.
Definition EncodingType : Type := N.

Record CalibrationQueryGeneratorPredicateConfiguration : Type := {
  table_name : string;
  data_type : DataType;
  first_encoding_type : EncodingType;
  second_encoding_type : option EncodingType;
  third_encoding_type : option EncodingType;
  selectivity : float;
  reference_column : bool;
  row_count : N
}.

(** [std::tie(c.table_name, ..., c.row_count)]. *)
Definition tie (c : CalibrationQueryGeneratorPredicateConfiguration)
  : string * (N * (N * (option N * (option N * (float * (bool * (N * unit))))))) :=
  (table_name c, (data_type c, (first_encoding_type c, (second_encoding_type c,
   (third_encoding_type c, (selectivity c, (reference_column c, (row_count c, tt)))))))).

(** [operator==] and [operator<] of the configuration. *)
Definition operator_eq (lhs rhs : CalibrationQueryGeneratorPredicateConfiguration) : bool :=
  equal_to (tie lhs) (tie rhs).
Definition operator_lt (lhs rhs : CalibrationQueryGeneratorPredicateConfiguration) : bool :=
  less (tie lhs) (tie rhs).

(** The lexicographic order as the specification words it: the first field,
    in declaration order, in which the two records differ decides. *)
Definition lexicographic_lt (a b : CalibrationQueryGeneratorPredicateConfiguration) : bool :=
  less (table_name a) (table_name b) ||
  (equal_to (table_name a) (table_name b) &&
   (less (data_type a) (data_type b) ||
    (equal_to (data_type a) (data_type b) &&
     (less (first_encoding_type a) (first_encoding_type b) ||
      (equal_to (first_encoding_type a) (first_encoding_type b) &&
       (less (second_encoding_type a) (second_encoding_type b) ||
        (equal_to (second_encoding_type a) (second_encoding_type b) &&
         (less (third_encoding_type a) (third_encoding_type b) ||
          (equal_to (third_encoding_type a) (third_encoding_type b) &&
           (less (selectivity a) (selectivity b) ||
            (equal_to (selectivity a) (selectivity b) &&
             (less (reference_column a) (reference_column b) ||
              (equal_to (reference_column a) (reference_column b) &&
               less (row_count a) (row_count b)))))))))))))).

Definition is_nan (f : float) : bool :=
  match f with S754_nan => true | _ => false end.

(** Exactly one of three answers is [true]. *)
Definition exactly_one (b1 b2 b3 : bool) : bool :=
  (b1 && negb b2 && negb b3) || (negb b1 && b2 && negb b3) || (negb b1 && negb b2 && b3).

(** A configuration whose selectivity is NaN. *)
Definition nan_configuration : CalibrationQueryGeneratorPredicateConfiguration :=
  {| table_name := "lineitem"; data_type := 1%N; first_encoding_type := 0%N;
     second_encoding_type := None; third_encoding_type := None;
     selectivity := S754_nan; reference_column := false; row_count := 1000%N |}.

(** Selectivity one half, [1 * 2^-1]. *)
Definition half_configuration (table : string) (rows : N)
  : CalibrationQueryGeneratorPredicateConfiguration :=
  {| table_name := table; data_type := 1%N; first_encoding_type := 0%N;
     second_encoding_type := Some 1%N; third_encoding_type := None;
     selectivity := S754_finite false 1 (-1); reference_column := false;
     row_count := rows |}.

(** ** Vocabulary of the properties *)

(** A call that returns, and a call that fails an assertion. *)
Definition succeeds {A : Type} (o : outcome A) : Prop := ∃ a, o = Returns a.
Definition violates {A : Type} (o : outcome A) : Prop := ∃ message, o = InvariantViolation message.

(** The node a constructor builds: mode and predicates, no inputs yet. *)
Definition mk_join (mode : JoinMode) (predicates : list Expression) : JoinNode :=
  {| join_mode := mode; node_expressions := predicates;
     left_input := nullptr; right_input := nullptr |}.

(** The predicate shapes that constraint propagation does not support. *)
Definition is_equals_binary_predicate (e : Expression) : Prop :=
  ∃ a b, e = BinaryPredicateExpression Equals a b.

Definition unsupported_predicate_shape (n : JoinNode) : Prop :=
  (1 < length (join_predicates n))%nat ∨
  ∃ p, join_predicates n = [p] ∧ ¬ is_equals_binary_predicate p.

(** The invariant the constructors establish: [Cross] joins, and only they,
    have no predicates. *)
Definition well_formed (n : JoinNode) : Prop :=
  join_mode n = Cross ↔ join_predicates n = [].

(** What makes [<] a strict total order that agrees with [==], on the values
    that satisfy [ok]. *)
Record strict_total_order {A : Type} (ok : A → Prop) (lt eq : A → A → bool) : Prop := {
  sto_trichotomy : ∀ x y, ok x → ok y → exactly_one (lt x y) (eq x y) (lt y x) = true;
  sto_lt_trans : ∀ x y z, ok x → ok y → ok z →
    lt x y = true → lt y z = true → lt x z = true;
  sto_eq_trans : ∀ x y z, ok x → ok y → ok z →
    eq x y = true → eq y z = true → eq x z = true;
  sto_lt_eq : ∀ x y z, ok x → ok y → ok z →
    lt x y = true → eq y z = true → lt x z = true;
  sto_eq_lt : ∀ x y z, ok x → ok y → ok z →
    eq x y = true → lt y z = true → lt x z = true
}.

Definition always {A : Type} (x : A) : Prop := True.

(** A configuration is valid when its selectivity is a number. *)
Definition valid_configuration (c : CalibrationQueryGeneratorPredicateConfiguration) : Prop :=
  is_nan (selectivity c) = false.

(** An input none of whose constraint methods throws. *)
Definition input_never_violates (input : shared_ptr AbstractLQPNode) : Prop :=
  ∀ l, input = Some l →
    ¬ violates (node_constraints l) ∧
    ∀ columns, ¬ violates (node_has_unique_constraint l columns).

(** A join node made and wired: [JoinNode::make] followed by
    [set_left_input] and [set_right_input]. *)
Definition wired_join (mode : JoinMode) (predicates : list Expression)
    (l r : AbstractLQPNode) : JoinNode :=
  set_right_input (set_left_input (mk_join mode predicates) (Some l)) (Some r).

(** The text of the predicates in a description: each one between brackets
    after a blank. *)
Definition bracketed {ExpressionDescriptionMode : Type}
    (expression_description : Expression → ExpressionDescriptionMode → string)
    (expression_mode : ExpressionDescriptionMode) (predicates : list Expression) : string :=
  String.concat ""
    (map (λ predicate, " [" +:+ expression_description predicate expression_mode +:+ "]")
         predicates).

(** Positive and negative zero. *)
Definition is_zero (f : float) : bool :=
  match f with S754_zero _ => true | _ => false end.

(** Two floats that [==] cannot tell apart: the same number, or two zeros. *)
Definition same_number (x y : float) : Prop :=
  is_nan x = false ∧ (x = y ∨ (is_zero x = true ∧ is_zero y = true)).

(** A relation that never holds in both directions. *)
Definition asymmetric {A : Type} (lt : A → A → bool) : Prop :=
  ∀ x y, lt x y = true → lt y x = false.

(** Configurations that differ in selectivity and row count only. *)
Definition configuration_with (s : float) (rows : N)
  : CalibrationQueryGeneratorPredicateConfiguration :=
  {| table_name := "lineitem"; data_type := 1%N; first_encoding_type := 0%N;
     second_encoding_type := None; third_encoding_type := None;
     selectivity := s; reference_column := false; row_count := rows |}.

(** ** Example plans *)

Module Examples.

Definition L_a : Expression := LQPColumnExpression 1%N 0%N.
Definition L_c : Expression := LQPColumnExpression 1%N 1%N.
Definition R_b : Expression := LQPColumnExpression 2%N 0%N.
Definition R_d : Expression := LQPColumnExpression 2%N 1%N.

(** A stored table [L(a, c)] whose column [a] is declared unique and
    whose column [c] is nullable. *)
Definition L : AbstractLQPNode :=
  {| node_column_expressions := Returns [Some L_a; Some L_c];
     node_is_column_nullable := λ i, Returns (i =? 1);
     node_constraints := Returns (Some {[ {[L_a]} ]});
     node_has_unique_constraint := λ s, Returns (bool_decide (s = {[L_a]})) |}.

(** A stored table [R(b, d)] whose column [b] is declared unique. *)
Definition R : AbstractLQPNode :=
  {| node_column_expressions := Returns [Some R_b; Some R_d];
     node_is_column_nullable := λ i, Returns false;
     node_constraints := Returns (Some {[ {[R_b]} ]});
     node_has_unique_constraint := λ s, Returns (bool_decide (s = {[R_b]})) |}.

(** A table [R'(b, d)] whose column [d], not [b], is declared unique. *)
Definition R_key_d : AbstractLQPNode :=
  {| node_column_expressions := Returns [Some R_b; Some R_d];
     node_is_column_nullable := λ i, Returns false;
     node_constraints := Returns (Some {[ {[R_d]} ]});
     node_has_unique_constraint := λ s, Returns (bool_decide (s = {[R_d]})) |}.

Definition a_eq_b : Expression := BinaryPredicateExpression Equals L_a R_b.
Definition c_eq_d : Expression := BinaryPredicateExpression Equals L_c R_d.
Definition a_lt_b : Expression := BinaryPredicateExpression LessThan L_a R_b.

(** [JoinNode::make(mode, predicates, left, right)]. *)
Definition join (mode : JoinMode) (predicates : list Expression)
    (left right : AbstractLQPNode) : JoinNode :=
  {| join_mode := mode; node_expressions := predicates;
     left_input := Some left; right_input := Some right |}.

End Examples.

(** ** Proof automation *)

(** Runs the binds of the [outcome] monad whose left side is a known result. *)
Ltac run_outcome :=
  cbn [mbind outcome_mbind outcome_bind mret outcome_mret deref vector_front].

(** Case analysis on floats and on the integer comparisons inside
    [SFcompare]. *)
Ltac float_cases :=
  repeat match goal with
         | f : float |- _ => destruct f as [[]|[]| |[] ? ?]
         end; cbn in *; try done.

Ltac compare_cases :=
  repeat match goal with
         | H : context [Z.compare ?a ?b] |- _ => destruct (Z.compare_spec a b)
         | |- context [Z.compare ?a ?b] => destruct (Z.compare_spec a b)
         | H : context [Pos.compare_cont Eq ?a ?b] |- _ =>
             change (Pos.compare_cont Eq a b) with (Pos.compare a b) in *;
             destruct (Pos.compare_spec a b)
         | |- context [Pos.compare_cont Eq ?a ?b] =>
             change (Pos.compare_cont Eq a b) with (Pos.compare a b) in *;
             destruct (Pos.compare_spec a b)
         end; cbn in *; try done; try lia.

(** ** Properties of the join node *)

Lemma succeeds_not_violates {A : Type} (o : outcome A) : succeeds o → ¬ violates o.
Proof. intros [a ->] [m Hm]. discriminate. Qed.

(** *** Vector copies *)

Lemma std_copy_window {A : Type} (src pre mid post : list A) :
  length mid = length src →
  std_copy src (pre ++ mid ++ post) (length pre)
  = (pre ++ src ++ post, (length pre + length src)%nat).
Proof.
  revert pre mid.
  induction src as [|x src IH]; intros pre mid Hlen.
  - destruct mid; [|discriminate]. simpl. by rewrite Nat.add_0_r.
  - destruct mid as [|m mid]; [discriminate|].
    injection Hlen as Hlen. cbn [std_copy].
    replace (<[length pre:=x]> (pre ++ (m :: mid) ++ post))
      with ((pre ++ [x]) ++ mid ++ post).
    + replace (S (length pre)) with (length (pre ++ [x]))
        by (rewrite length_app; simpl; lia).
      rewrite (IH _ _ Hlen), length_app, <- !app_assoc. simpl.
      f_equal. lia.
    + rewrite <- app_assoc. simpl.
      rewrite insert_app_r_alt by lia. by rewrite Nat.sub_diag.
Qed.

Lemma std_copy_fresh {A : Type} (d : A) (left right : list A) :
  std_copy left (resize (length left + length right) d []) 0
  = (left ++ replicate (length right) d, length left).
Proof.
  rewrite resize_nil, replicate_add.
  apply (std_copy_window left [] (replicate (length left) d) (replicate (length right) d)).
  apply length_replicate.
Qed.

Lemma std_copy_tail {A : Type} (d : A) (left right : list A) :
  std_copy right (left ++ replicate (length right) d) (length left)
  = (left ++ right, (length left + length right)%nat).
Proof.
  pose proof (std_copy_window right left (replicate (length right) d) []) as H.
  rewrite !app_nil_r in H. apply H, length_replicate.
Qed.

(** *** Output columns *)

(** C5: with both inputs set, a Semi or Anti join outputs exactly the
    columns of its left input, every other mode the columns of the left
    input followed by those of the right input; the number of output columns
    is accordingly the left count, or the sum of both counts. *)
Theorem column_expressions_of_join (n : JoinNode) (l r : AbstractLQPNode)
    (left_columns right_columns : list (shared_ptr Expression)) :
  left_input n = Some l → right_input n = Some r →
  node_column_expressions l = Returns left_columns →
  node_column_expressions r = Returns right_columns →
  ∃ columns, column_expressions n = Returns columns ∧
    match join_mode n with
    | Semi | AntiNullAsTrue | AntiNullAsFalse =>
        columns = left_columns ∧ length columns = length left_columns
    | _ =>
        columns = left_columns ++ right_columns ∧
        length columns = (length left_columns + length right_columns)%nat
    end.
Proof.
  intros Hl Hr HL HR. unfold column_expressions.
  rewrite Hl, Hr, HL. cbn [mbind outcome_mbind outcome_bind]. rewrite HR.
  cbn [mbind outcome_mbind outcome_bind].
  destruct (join_mode n); cbn [bool_decide decide_rel andb];
    repeat case_bool_decide; try congruence; cbn [andb].
  all: try (rewrite std_copy_fresh, std_copy_tail; cbn [fst];
            eexists; split; [reflexivity|]; split; [reflexivity|apply length_app]).
  all: pose proof (std_copy_fresh nullptr left_columns []) as Hc;
       cbn [length replicate] in Hc; rewrite app_nil_r in Hc; rewrite Hc;
       eexists; split; [reflexivity|]; split; reflexivity.
Qed.

Lemma column_expressions_of_join_witness :
  ∃ columns,
    column_expressions (Examples.join Inner [Examples.a_eq_b] Examples.L Examples.R)
      = Returns columns ∧
    columns = [Some Examples.L_a; Some Examples.L_c; Some Examples.R_b; Some Examples.R_d] ∧
    length columns = 4%nat.
Proof.
  exact (column_expressions_of_join
           (Examples.join Inner [Examples.a_eq_b] Examples.L Examples.R)
           Examples.L Examples.R _ _ eq_refl eq_refl eq_refl eq_refl).
Defined.

(** *** Nullability *)

Lemma right_column_id_no_wrap (column_id count : Z) :
  0 ≤ count ≤ column_id → column_id < 2 ^ ColumnID_bits →
  to_ColumnID_base_type (column_id - to_ColumnID_base_type count) = column_id - count.
Proof.
  intros Hc Hi. unfold to_ColumnID_base_type.
  rewrite (Z.mod_small count) by lia. apply Z.mod_small. lia.
Qed.

(** C6: with both inputs set and a column id [i] (any 16-bit id, so in
    particular every index in range): under [Left] every right-side column
    ([i] at or beyond the left column count) is nullable, under [Right] every
    left-side column is, under [FullOuter] every column is; in every other
    case the answer is that of the input the column comes from, asked for
    the input-local index ([i] on the left, [i] minus the left column count
    on the right). *)
Theorem is_column_nullable_of_join (n : JoinNode) (l r : AbstractLQPNode)
    (left_columns : list (shared_ptr Expression)) (i : ColumnID) :
  left_input n = Some l → right_input n = Some r →
  node_column_expressions l = Returns left_columns →
  0 ≤ i < 2 ^ ColumnID_bits →
  let left_count := Z.of_nat (length left_columns) in
  is_column_nullable n i =
    match join_mode n with
    | Left => if i <? left_count then node_is_column_nullable l i else Returns true
    | Right =>
        if i <? left_count then Returns true
        else node_is_column_nullable r (i - left_count)
    | FullOuter => Returns true
    | _ =>
        if i <? left_count then node_is_column_nullable l i
        else node_is_column_nullable r (i - left_count)
    end.
Proof.
  intros Hl Hr HL Hi left_count. unfold is_column_nullable.
  rewrite Hl, Hr, HL. cbn [mbind outcome_mbind outcome_bind]. fold left_count.
  destruct (Z.ltb_spec i left_count) as [Hlt|Hge].
  - destruct (join_mode n); reflexivity.
  - rewrite right_column_id_no_wrap by (unfold left_count in *; lia).
    destruct (join_mode n); reflexivity.
Qed.

Lemma is_column_nullable_of_join_witness :
  is_column_nullable (Examples.join Left [Examples.a_eq_b] Examples.L Examples.R) 2
  = Returns true.
Proof.
  assert (0 ≤ 2 < 2 ^ ColumnID_bits) as Hi by (split; [discriminate|reflexivity]).
  exact (is_column_nullable_of_join
           (Examples.join Left [Examples.a_eq_b] Examples.L Examples.R)
           Examples.L Examples.R _ 2 eq_refl eq_refl eq_refl Hi).
Defined.

(** *** Construction *)

Lemma JoinNode_new_cases (mode : JoinMode) :
  JoinNode_new mode =
    if bool_decide (mode = Cross) then Returns (mk_join mode [])
    else InvariantViolation "Only Cross Joins can be constructed without predicate".
Proof. unfold JoinNode_new, Assert. cbn. by case_bool_decide. Qed.

Lemma JoinNode_new_predicates_cases (mode : JoinMode) (predicates : list Expression) :
  JoinNode_new_predicates mode predicates =
    if bool_decide (mode = Cross) then InvariantViolation "Cross Joins take no predicate"
    else if bool_decide (predicates = []) then
      InvariantViolation "Non-Cross Joins require predicates"
    else Returns (mk_join mode predicates).
Proof.
  unfold JoinNode_new_predicates, Assert, join_predicates. cbn.
  repeat case_bool_decide; cbn; try reflexivity; contradiction.
Qed.

(** C7 as stated fails: the claim lets construction succeed whenever a
    [Cross] join has no predicates, but the predicate-list constructor
    rejects [Cross] even with an empty list. *)
Lemma cross_with_empty_predicate_list_rejected :
  ¬ (succeeds (JoinNode_new_predicates Cross [])
     ↔ (Cross = Cross ∧ @nil Expression = []) ∨ (Cross ≠ Cross ∧ @nil Expression ≠ [])).
Proof.
  intros [_ H]. destruct (H (or_introl (conj eq_refl eq_refl))) as [n Hn].
  discriminate Hn.
Qed.

(** C7, amended: the constructor without predicates succeeds exactly for
    [Cross]; the constructors taking a predicate or a predicate list succeed
    exactly for a non-[Cross] mode with at least one predicate; every other
    construction fails with an InvariantViolation, in particular [Cross]
    with predicates and a non-[Cross] mode without.  The node built carries
    the mode and the predicates given. *)
Theorem JoinNode_construction (mode : JoinMode) (predicates : list Expression)
    (predicate : Expression) :
  (mode = Cross → JoinNode_new mode = Returns (mk_join Cross [])) ∧
  (mode ≠ Cross → violates (JoinNode_new mode)) ∧
  (mode ≠ Cross → predicates ≠ [] →
     JoinNode_new_predicates mode predicates = Returns (mk_join mode predicates)) ∧
  (mode = Cross → violates (JoinNode_new_predicates mode predicates)) ∧
  (predicates = [] → violates (JoinNode_new_predicates mode predicates)) ∧
  (mode ≠ Cross →
     JoinNode_new_predicate mode predicate = Returns (mk_join mode [predicate])) ∧
  (mode = Cross → violates (JoinNode_new_predicate mode predicate)).
Proof.
  unfold JoinNode_new_predicate.
  rewrite JoinNode_new_cases, !JoinNode_new_predicates_cases. unfold violates.
  repeat split; intros; subst; repeat case_bool_decide;
    try contradiction; try discriminate; eauto.
Qed.

Lemma JoinNode_construction_witness :
  JoinNode_new Cross = Returns (mk_join Cross []) ∧
  violates (JoinNode_new Inner) ∧
  JoinNode_new_predicates Inner [Examples.a_eq_b] = Returns (mk_join Inner [Examples.a_eq_b]) ∧
  violates (JoinNode_new_predicates Cross [Examples.a_eq_b]) ∧
  violates (JoinNode_new_predicates Inner []) ∧
  violates (JoinNode_new_predicate Cross Examples.a_eq_b).
Proof.
  pose proof (JoinNode_construction Cross [Examples.a_eq_b] Examples.a_eq_b)
    as (Hnew & _ & _ & Hcross & _ & _ & Hcross1).
  pose proof (JoinNode_construction Inner [Examples.a_eq_b] Examples.a_eq_b)
    as (_ & Hinner & Hpreds & _ & _ & _ & _).
  pose proof (JoinNode_construction Inner [] Examples.a_eq_b)
    as (_ & _ & _ & _ & Hempty & _ & _).
  refine (conj (Hnew eq_refl) (conj (Hinner _) (conj (Hpreds _ _)
            (conj (Hcross eq_refl) (conj (Hempty eq_refl) (Hcross1 eq_refl))))));
    discriminate.
Defined.

(** *** Unique constraints *)

Lemma emplace_all_union (src out : ExpressionsConstraintDefinitions) :
  emplace_all src out = src ∪ out.
Proof.
  unfold emplace_all.
  assert (∀ (cs : list ExpressionsConstraintDefinition) acc,
            foldl emplace acc cs = list_to_set cs ∪ acc) as Hfold.
  { induction cs as [|c cs IH]; intros acc; simpl.
    - set_solver.
    - rewrite IH. unfold emplace. case_bool_decide; set_solver. }
  rewrite Hfold. by rewrite list_to_set_elements_L.
Qed.

Lemma semi_join_forwards (n : JoinNode) :
  join_mode n = Semi → constraints n = forward_constraints n.
Proof. intros Hmode. unfold constraints. by rewrite bool_decide_eq_true_2. Qed.

Lemma constraints_multi_predicate (n : JoinNode) :
  join_mode n ≠ Semi → (1 < length (join_predicates n))%nat →
  constraints n = Returns (Some ∅).
Proof.
  intros Hmode Hlen. unfold constraints.
  rewrite bool_decide_eq_false_2 by done. by rewrite bool_decide_eq_true_2.
Qed.

(** The single-predicate path up to the switch over the join mode. *)
Lemma constraints_single_equals (n : JoinNode) (l r : AbstractLQPNode)
    (a b : Expression) (left_unique right_unique : bool) :
  join_mode n ≠ Semi →
  join_predicates n = [BinaryPredicateExpression Equals a b] →
  left_input n = Some l → right_input n = Some r →
  node_has_unique_constraint l {[a]} = Returns left_unique →
  node_has_unique_constraint r {[b]} = Returns right_unique →
  constraints n =
    match join_mode n with
    | Inner =>
        if left_unique && right_unique then
          left_ptr ← node_constraints l;
          right_ptr ← node_constraints r;
          left_constraints ← deref left_ptr;
          right_constraints ← deref right_ptr;
          Returns (Some (right_constraints ∪ (left_constraints ∪ ∅)))
        else if left_unique then node_constraints r
        else if right_unique then node_constraints l
        else Returns (Some ∅)
    | Semi => InvariantViolation "JoinMode::Semi should already be handled."
    | _ => Returns (Some ∅)
    end.
Proof.
  intros Hmode Hpreds Hl Hr Hul Hur. unfold constraints.
  rewrite bool_decide_eq_false_2 by done.
  rewrite Hpreds, Hl, Hr. cbn [length bool_decide decide_rel].
  rewrite bool_decide_eq_false_2 by (simpl; lia).
  cbn [vector_front mbind outcome_mbind outcome_bind
       dynamic_pointer_cast_BinaryPredicateExpression deref].
  rewrite bool_decide_eq_false_2 by (intros H; by apply H).
  rewrite Hul. run_outcome. rewrite Hur. run_outcome.
  destruct (join_mode n); try reflexivity.
  destruct (left_unique && right_unique); [|reflexivity].
  destruct (node_constraints l) as [[UL|]| |]; run_outcome; try reflexivity;
    destruct (node_constraints r) as [[UR|]| |]; run_outcome; try reflexivity.
  by rewrite !emplace_all_union.
Qed.

(** C1: an [Inner] join with both inputs set and the single predicate
    [a = b]: when [{a}] is unique in the left input and [{b}] in the right
    one, the constraints are the union of the two inputs' constraint sets;
    when only the left operand is unique, they are exactly what the right
    input returns; when only the right operand is unique, exactly what the
    left input returns; when neither is, the empty set. *)
Theorem constraints_inner_equi_join (n : JoinNode) (l r : AbstractLQPNode)
    (a b : Expression) (left_unique right_unique : bool) :
  join_mode n = Inner →
  left_input n = Some l → right_input n = Some r →
  join_predicates n = [BinaryPredicateExpression Equals a b] →
  node_has_unique_constraint l {[a]} = Returns left_unique →
  node_has_unique_constraint r {[b]} = Returns right_unique →
  (left_unique = true → right_unique = true →
     ∀ U_L U_R, node_constraints l = Returns (Some U_L) →
                node_constraints r = Returns (Some U_R) →
                constraints n = Returns (Some (U_L ∪ U_R))) ∧
  (left_unique = true → right_unique = false → constraints n = node_constraints r) ∧
  (left_unique = false → right_unique = true → constraints n = node_constraints l) ∧
  (left_unique = false → right_unique = false → constraints n = Returns (Some ∅)).
Proof.
  intros Hmode Hl Hr Hpreds Hul Hur.
  rewrite (constraints_single_equals n l r a b left_unique right_unique)
    by (done || congruence).
  rewrite Hmode.
  split; [|split; [|split]]; intros -> ->; cbn [andb]; try reflexivity.
  intros U_L U_R -> ->. cbn [mbind outcome_mbind outcome_bind deref].
  do 2 f_equal. set_solver.
Qed.

Lemma constraints_inner_equi_join_witness :
  constraints (Examples.join Inner [Examples.a_eq_b] Examples.L Examples.R)
    = Returns (Some ({[ {[Examples.L_a]} ]} ∪ {[ {[Examples.R_b]} ]})) ∧
  constraints (Examples.join Inner [Examples.a_eq_b] Examples.L Examples.R_key_d)
    = Returns (Some {[ {[Examples.R_d]} ]}).
Proof.
  assert (node_has_unique_constraint Examples.L {[Examples.L_a]} = Returns true) as Hul
    by (simpl; f_equal; by apply bool_decide_eq_true_2).
  assert (node_has_unique_constraint Examples.R {[Examples.R_b]} = Returns true) as Hur
    by (simpl; f_equal; by apply bool_decide_eq_true_2).
  assert (node_has_unique_constraint Examples.R_key_d {[Examples.R_b]} = Returns false) as Hur'
    by (simpl; f_equal; apply bool_decide_eq_false_2; intros H;
        apply singleton_inj in H; discriminate H).
  split.
  - pose proof (constraints_inner_equi_join
                  (Examples.join Inner [Examples.a_eq_b] Examples.L Examples.R)
                  Examples.L Examples.R Examples.L_a Examples.R_b true true
                  eq_refl eq_refl eq_refl eq_refl Hul Hur) as [H _].
    exact (H eq_refl eq_refl _ _ eq_refl eq_refl).
  - pose proof (constraints_inner_equi_join
                  (Examples.join Inner [Examples.a_eq_b] Examples.L Examples.R_key_d)
                  Examples.L Examples.R_key_d Examples.L_a Examples.R_b true false
                  eq_refl eq_refl eq_refl eq_refl Hul Hur') as (_ & H' & _).
    exact (H' eq_refl eq_refl).
Defined.

Lemma constraints_single_non_equals (n : JoinNode) (p : Expression) :
  join_mode n ≠ Semi → join_predicates n = [p] → ¬ is_equals_binary_predicate p →
  constraints n = Returns nullptr.
Proof.
  intros Hmode Hpreds Hp. unfold constraints.
  rewrite bool_decide_eq_false_2 by done.
  rewrite Hpreds. cbn [length]. rewrite bool_decide_eq_false_2 by lia. run_outcome.
  destruct p as [| |c a b| |]; try reflexivity.
  cbn [dynamic_pointer_cast_BinaryPredicateExpression].
  case_bool_decide as Hc; [reflexivity|].
  destruct Hp. exists a, b. f_equal. by destruct (decide (c = Equals)).
Qed.

Lemma constraints_no_predicate (n : JoinNode) :
  join_mode n ≠ Semi → join_predicates n = [] → constraints n = Undefined.
Proof.
  intros Hmode Hpreds. unfold constraints.
  rewrite bool_decide_eq_false_2 by done.
  rewrite Hpreds. cbn [length]. by rewrite bool_decide_eq_false_2 by lia.
Qed.

Lemma constraints_outer_and_anti_equi_join (n : JoinNode) (l r : AbstractLQPNode)
    (a b : Expression) (left_unique right_unique : bool) :
  join_mode n ∈ [Left; Right; FullOuter; AntiNullAsTrue; AntiNullAsFalse] →
  join_predicates n = [BinaryPredicateExpression Equals a b] →
  left_input n = Some l → right_input n = Some r →
  node_has_unique_constraint l {[a]} = Returns left_unique →
  node_has_unique_constraint r {[b]} = Returns right_unique →
  constraints n = Returns (Some ∅).
Proof.
  intros Hmode Hpreds Hl Hr Hul Hur.
  rewrite (constraints_single_equals n l r a b left_unique right_unique); try done.
  - set_unfold in Hmode.
    destruct Hmode as [->|[->|[->|[->|[->|[]]]]]]; reflexivity.
  - intros Hs. rewrite Hs in Hmode. set_unfold in Hmode. naive_solver.
Qed.

(** C2 as stated fails: a [Semi] join with two predicates is of an
    unsupported shape, yet it returns the constraints of its left input and
    not the empty set; and an [Inner] join whose single predicate is [a < b]
    returns a null pointer, not a pointer to an empty set. *)
Lemma unsupported_shape_not_always_empty :
  let semi := Examples.join Semi [Examples.a_eq_b; Examples.c_eq_d] Examples.L Examples.R in
  let inner := Examples.join Inner [Examples.a_lt_b] Examples.L Examples.R in
  (unsupported_predicate_shape semi ∧
   constraints semi = Returns (Some {[ {[Examples.L_a]} ]}) ∧
   constraints semi ≠ Returns (Some ∅)) ∧
  (unsupported_predicate_shape inner ∧
   constraints inner = Returns nullptr ∧
   constraints inner ≠ Returns (Some ∅)).
Proof.
  split.
  - split; [left; simpl; lia|]. split; [reflexivity|].
    intros H.
    apply (non_empty_singleton_L (C := ExpressionsConstraintDefinitions)
             ({[Examples.L_a]} : ExpressionUnorderedSet)).
    change (constraints _) with
      (Returns (Some ({[ {[Examples.L_a]} ]} : ExpressionsConstraintDefinitions))) in H.
    congruence.
  - split; [|split; [reflexivity|discriminate]].
    right. exists Examples.a_lt_b. split; [reflexivity|].
    intros (a & b & H). discriminate H.
Qed.

(** C2, amended: in every mode other than [Semi], a join with more than one
    predicate returns the empty constraint set, and a join whose single
    predicate is not an [Equals] binary predicate returns without raising an
    error. *)
Theorem constraints_of_unsupported_shape (n : JoinNode) :
  join_mode n ≠ Semi →
  ((1 < length (join_predicates n))%nat → constraints n = Returns (Some ∅)) ∧
  (∀ p, join_predicates n = [p] → ¬ is_equals_binary_predicate p →
        succeeds (constraints n)).
Proof.
  intros Hmode. split.
  - by apply constraints_multi_predicate.
  - intros p Hpreds Hp. eexists. by apply (constraints_single_non_equals n p).
Qed.

Lemma constraints_of_unsupported_shape_witness :
  constraints (Examples.join Inner [Examples.a_eq_b; Examples.c_eq_d] Examples.L Examples.R)
    = Returns (Some ∅) ∧
  succeeds (constraints (Examples.join Inner [Examples.a_lt_b] Examples.L Examples.R)).
Proof.
  assert (Inner ≠ Semi) as Hmode by discriminate.
  split.
  - refine (proj1 (constraints_of_unsupported_shape
                     (Examples.join Inner [Examples.a_eq_b; Examples.c_eq_d]
                        Examples.L Examples.R) Hmode) _).
    simpl. lia.
  - refine (proj2 (constraints_of_unsupported_shape
                     (Examples.join Inner [Examples.a_lt_b] Examples.L Examples.R) Hmode)
              Examples.a_lt_b eq_refl _).
    intros (a & b & H). discriminate H.
Defined.

(** C3: a [Semi] join with the single predicate [a = b] returns exactly what
    its left input returns as constraints, whatever the right input is. *)
Theorem constraints_semi_equi_join (n : JoinNode) (l : AbstractLQPNode) (a b : Expression) :
  join_mode n = Semi →
  join_predicates n = [BinaryPredicateExpression Equals a b] →
  left_input n = Some l →
  constraints n = node_constraints l ∧
  ∀ right, constraints (set_right_input n right) = node_constraints l.
Proof.
  intros Hmode _ Hl. split.
  - rewrite semi_join_forwards by done. unfold forward_constraints. by rewrite Hl.
  - intros right. rewrite semi_join_forwards by done.
    unfold forward_constraints. simpl. by rewrite Hl.
Qed.

Lemma constraints_semi_equi_join_witness :
  constraints (Examples.join Semi [Examples.a_eq_b] Examples.L Examples.R)
    = Returns (Some {[ {[Examples.L_a]} ]}) ∧
  constraints (Examples.join Semi [Examples.a_eq_b] Examples.L Examples.R_key_d)
    = Returns (Some {[ {[Examples.L_a]} ]}).
Proof.
  pose proof (constraints_semi_equi_join
                (Examples.join Semi [Examples.a_eq_b] Examples.L Examples.R)
                Examples.L Examples.L_a Examples.R_b eq_refl eq_refl eq_refl) as [H1 H2].
  split; [exact H1|exact (H2 (Some Examples.R_key_d))].
Defined.

(** C4 fails on the code at a [Cross] join: it has no predicate, and
    [constraints()] takes [front()] of the empty predicate vector (line 85)
    before the switch reaches [case JoinMode::Cross]; and an outer join with
    a single non-[Equals] predicate returns a null pointer (line 86), not a
    pointer to an empty set. *)
Theorem constraints_cross_and_non_equi_outer_join :
  constraints (Examples.join Cross [] Examples.L Examples.R) = Undefined ∧
  constraints (Examples.join Left [Examples.a_lt_b] Examples.L Examples.R) = Returns nullptr.
Proof. split; reflexivity. Qed.

(** C10: a [Semi] join forwards constraints before the predicates are looked
    at: whatever its predicate list is (several predicates, a single
    non-[Equals] predicate), it returns [forward_constraints()], that is,
    what its left input returns. *)
Theorem constraints_semi_any_predicates (n : JoinNode) (l : AbstractLQPNode) :
  join_mode n = Semi → left_input n = Some l →
  constraints n = forward_constraints n ∧ constraints n = node_constraints l.
Proof.
  intros Hmode Hl. rewrite semi_join_forwards by done.
  split; [reflexivity|]. unfold forward_constraints. by rewrite Hl.
Qed.

Lemma constraints_semi_any_predicates_witness :
  constraints (Examples.join Semi [Examples.a_eq_b; Examples.c_eq_d] Examples.L Examples.R)
    = Returns (Some {[ {[Examples.L_a]} ]}) ∧
  constraints (Examples.join Semi [Examples.a_lt_b] Examples.L Examples.R)
    = Returns (Some {[ {[Examples.L_a]} ]}).
Proof.
  split.
  - exact (proj2 (constraints_semi_any_predicates
                    (Examples.join Semi [Examples.a_eq_b; Examples.c_eq_d]
                       Examples.L Examples.R) Examples.L eq_refl eq_refl)).
  - exact (proj2 (constraints_semi_any_predicates
                    (Examples.join Semi [Examples.a_lt_b] Examples.L Examples.R)
                    Examples.L eq_refl eq_refl)).
Defined.

(** *** Shallow copy *)

Lemma JoinNode_new_well_formed (mode : JoinMode) (n : JoinNode) :
  JoinNode_new mode = Returns n → well_formed n.
Proof.
  rewrite JoinNode_new_cases. case_bool_decide; [|discriminate].
  intros [= <-]. by split.
Qed.

Lemma JoinNode_new_predicates_well_formed (mode : JoinMode)
    (predicates : list Expression) (n : JoinNode) :
  JoinNode_new_predicates mode predicates = Returns n → well_formed n.
Proof.
  rewrite JoinNode_new_predicates_cases. repeat case_bool_decide; try discriminate.
  intros [= <-]. split; simpl; intros; contradiction.
Qed.

Lemma identity_mapping_lookup (nodes : gset NodeId) (node : NodeId) :
  node ∈ nodes → identity_mapping nodes !! node = Some node.
Proof.
  intros Hin. unfold identity_mapping.
  apply lookup_set_to_map; [naive_solver|]. by exists node.
Qed.

Lemma expression_copy_identity (nodes : gset NodeId) (e : Expression) :
  referenced_nodes e ⊆ nodes →
  expression_copy_and_adapt_to_different_lqp e (identity_mapping nodes) = Returns e.
Proof.
  induction e as [v|node c|c l IHl r IHr|o l IHl r IHr|v IHv l IHl u IHu];
    cbn [referenced_nodes expression_copy_and_adapt_to_different_lqp]; intros Hsub.
  - reflexivity.
  - rewrite identity_mapping_lookup; [reflexivity|set_solver].
  - rewrite IHl, IHr by set_solver. reflexivity.
  - rewrite IHl, IHr by set_solver. reflexivity.
  - rewrite IHv, IHl, IHu by set_solver. reflexivity.
Qed.

Lemma expressions_copy_identity (nodes : gset NodeId) (es : list Expression) :
  (∀ e, e ∈ es → referenced_nodes e ⊆ nodes) →
  expressions_copy_and_adapt_to_different_lqp es (identity_mapping nodes) = Returns es.
Proof.
  induction es as [|e es IH]; intros Hsub; cbn [expressions_copy_and_adapt_to_different_lqp].
  - reflexivity.
  - rewrite expression_copy_identity by (apply Hsub; left).
    run_outcome. rewrite IH; [reflexivity|].
    intros e' He'. apply Hsub. by right.
Qed.

Lemma expressions_equal_identity (nodes : gset NodeId) (es : list Expression) :
  (∀ e, e ∈ es → referenced_nodes e ⊆ nodes) →
  expressions_equal_to_expressions_in_different_lqp es es (identity_mapping nodes)
  = Returns true.
Proof.
  induction es as [|e es IH]; intros Hsub;
    cbn [expressions_equal_to_expressions_in_different_lqp].
  - reflexivity.
  - unfold expression_equal_to_expression_in_different_lqp.
    rewrite expression_copy_identity by (apply Hsub; left).
    run_outcome. rewrite bool_decide_eq_true_2 by done.
    apply IH. intros e' He'. apply Hsub. by right.
Qed.

(** C8: for a join node as the constructors build it and the identity
    mapping on a set of nodes that covers the nodes its predicates refer to,
    the shallow copy exists, has the same mode and the same predicates, and
    is shallowly equal to the original under that mapping. *)
Theorem shallow_copy_shallow_equals (n : JoinNode) (nodes : gset NodeId) :
  well_formed n →
  (∀ e, e ∈ join_predicates n → referenced_nodes e ⊆ nodes) →
  ∃ copy,
    shallow_copy n (identity_mapping nodes) = Returns copy ∧
    join_mode copy = join_mode n ∧
    join_predicates copy = join_predicates n ∧
    shallow_equals copy n (identity_mapping nodes) = Returns true.
Proof.
  intros Hwf Hsub. unfold shallow_copy, _on_shallow_copy.
  case_bool_decide as Hpreds; cbn [negb].
  - assert (join_mode n = Cross) as Hmode by (by apply Hwf).
    rewrite JoinNode_new_cases, bool_decide_eq_true_2 by done.
    eexists. split; [reflexivity|]. split; [done|]. split; [done|].
    unfold shallow_equals, _on_shallow_equals. cbn [join_mode mk_join join_predicates node_expressions].
    rewrite bool_decide_eq_false_2 by (intros H; by apply H).
    unfold join_predicates in *. cbn [node_expressions]. rewrite Hpreds. reflexivity.
  - assert (join_mode n ≠ Cross) as Hmode by (intros H; by apply Hpreds, Hwf).
    rewrite expressions_copy_identity by done. run_outcome.
    rewrite JoinNode_new_predicates_cases, !bool_decide_eq_false_2 by done.
    eexists. split; [reflexivity|]. split; [done|]. split; [done|].
    unfold shallow_equals, _on_shallow_equals. cbn [join_mode mk_join join_predicates node_expressions].
    rewrite bool_decide_eq_false_2 by (intros H; by apply H).
    by apply expressions_equal_identity.
Qed.

Lemma shallow_copy_shallow_equals_witness :
  ∃ copy,
    shallow_copy (Examples.join Inner [Examples.a_eq_b] Examples.L Examples.R)
      (identity_mapping {[1%N; 2%N]}) = Returns copy ∧
    join_mode copy = Inner ∧
    join_predicates copy = [Examples.a_eq_b] ∧
    shallow_equals copy (Examples.join Inner [Examples.a_eq_b] Examples.L Examples.R)
      (identity_mapping {[1%N; 2%N]}) = Returns true.
Proof.
  apply (shallow_copy_shallow_equals
           (Examples.join Inner [Examples.a_eq_b] Examples.L Examples.R) {[1%N; 2%N]}).
  - split; discriminate.
  - intros e He. apply list_elem_of_singleton in He. subst e.
    intros node Hnode. simpl in Hnode. set_solver.
Defined.

(** ** Properties of the configuration order *)

Lemma exactly_one_cases (b1 b2 b3 : bool) :
  exactly_one b1 b2 b3 = true →
  (b1 = true ∧ b2 = false ∧ b3 = false) ∨
  (b1 = false ∧ b2 = true ∧ b3 = false) ∨
  (b1 = false ∧ b2 = false ∧ b3 = true).
Proof.
  destruct b1, b2, b3; cbn; intros H; try discriminate H;
    first [left; done | right; left; done | right; right; done].
Qed.

(** When [==] is Leibniz equality, trichotomy and transitivity suffice. *)
Lemma strict_total_order_leibniz {A : Type} (lt eq : A → A → bool) :
  (∀ x y, eq x y = true ↔ x = y) →
  (∀ x y, exactly_one (lt x y) (eq x y) (lt y x) = true) →
  (∀ x y z, lt x y = true → lt y z = true → lt x z = true) →
  strict_total_order always lt eq.
Proof.
  intros Heq Htri Htrans. split; intros x y z; intros; try done.
  - by eapply Htrans.
  - apply Heq. transitivity y; by apply Heq.
  - replace z with y by (by apply Heq). done.
  - replace x with y by (symmetry; by apply Heq). done.
Qed.

Lemma N_strict_total_order : strict_total_order always (less (A := N)) equal_to.
Proof.
  apply strict_total_order_leibniz; unfold less, equal_to, N_less, N_equal_to.
  - apply N.eqb_eq.
  - intros x y. unfold exactly_one.
    destruct (N.ltb_spec x y), (N.eqb_spec x y), (N.ltb_spec y x); try reflexivity; lia.
  - intros x y z. rewrite !N.ltb_lt. lia.
Qed.

Lemma bool_strict_total_order : strict_total_order always (less (A := bool)) equal_to.
Proof.
  apply strict_total_order_leibniz; unfold less, equal_to, bool_less, bool_equal_to.
  - intros [] []; cbn; split; congruence.
  - by intros [] [].
  - by intros [] [] [].
Qed.

Lemma string_compare_refl (s : string) : String.compare s s = Eq.
Proof.
  induction s as [|c s IH]; [reflexivity|]. simpl.
  unfold Ascii.compare. by rewrite N.compare_refl.
Qed.

Lemma string_compare_lt_trans (s1 s2 s3 : string) :
  String.compare s1 s2 = Lt → String.compare s2 s3 = Lt → String.compare s1 s3 = Lt.
Proof.
  revert s2 s3. induction s1 as [|c1 s1 IH]; intros [|c2 s2] [|c3 s3]; simpl; try done.
  unfold Ascii.compare.
  destruct (N.compare_spec (N_of_ascii c1) (N_of_ascii c2)) as [H12|H12|H12];
    destruct (N.compare_spec (N_of_ascii c2) (N_of_ascii c3)) as [H23|H23|H23];
    destruct (N.compare_spec (N_of_ascii c1) (N_of_ascii c3)) as [H13|H13|H13];
    try done; try lia.
  apply IH.
Qed.

Lemma string_strict_total_order : strict_total_order always (less (A := string)) equal_to.
Proof.
  apply strict_total_order_leibniz; unfold less, equal_to, string_less, string_equal_to.
  - apply String.eqb_eq.
  - intros x y. unfold String.ltb. rewrite (String.compare_antisym y x).
    destruct (String.eqb_spec x y) as [->|Hne].
    + by rewrite string_compare_refl.
    + destruct (String.compare x y) eqn:Hc; try reflexivity.
      by apply String.compare_eq_iff in Hc.
  - intros x y z. unfold String.ltb.
    destruct (String.compare x y) eqn:Hxy; try done.
    destruct (String.compare y z) eqn:Hyz; try done.
    by rewrite (string_compare_lt_trans x y z).
Qed.

Lemma float_strict_total_order :
  strict_total_order (λ f, is_nan f = false) (less (A := float)) equal_to.
Proof.
  split; unfold less, equal_to, float_less, float_equal_to, SFltb, SFeqb;
    intros; float_cases; compare_cases.
Qed.

Lemma optional_strict_total_order {A : Type} `{Less A} `{EqualTo A} (ok : A → Prop) :
  strict_total_order ok (less (A := A)) equal_to →
  strict_total_order (λ o, ∀ x, o = Some x → ok x) (less (A := option A)) equal_to.
Proof.
  intros [Htri Hlt Heq Hle Hel].
  split; unfold less, equal_to, optional_less, optional_equal_to.
  - intros [x|] [y|] Hx Hy; try reflexivity. apply Htri; eauto.
  - intros [x|] [y|] [z|] Hx Hy Hz; try done. apply Hlt; eauto.
  - intros [x|] [y|] [z|] Hx Hy Hz; try done. apply Heq; eauto.
  - intros [x|] [y|] [z|] Hx Hy Hz; try done. apply Hle; eauto.
  - intros [x|] [y|] [z|] Hx Hy Hz; try done. apply Hel; eauto.
Qed.

Lemma tuple_nil_strict_total_order : strict_total_order always (less (A := unit)) equal_to.
Proof. by split. Qed.

(** Settles one law of the pair from the laws of its components: every way
    the first components can compare is tried, and what is left is a law of
    the second components or contradicts a law of the first. *)
Ltac lexicographic_cases HtriA a1 a2 a3 Ha1 Ha2 Ha3 :=
  destruct (exactly_one_cases _ _ _ (HtriA a1 a2 Ha1 Ha2))
    as [(?E&?E&?E)|[(?E&?E&?E)|(?E&?E&?E)]];
  destruct (exactly_one_cases _ _ _ (HtriA a2 a3 Ha2 Ha3))
    as [(?F&?F&?F)|[(?F&?F&?F)|(?F&?F&?F)]];
  destruct (exactly_one_cases _ _ _ (HtriA a1 a3 Ha1 Ha3))
    as [(?G&?G&?G)|[(?G&?G&?G)|(?G&?G&?G)]];
  repeat match goal with
         | H : ?lt ?x ?y = ?b |- _ => rewrite !H in *; clear H
         end;
  cbn; try done;
  try (exfalso;
       repeat match goal with
              | H : true = true → _ |- _ => specialize (H eq_refl)
              end; congruence).

Lemma tuple_cons_strict_total_order {A B : Type} `{Less A} `{EqualTo A} `{Less B} `{EqualTo B}
    (okA : A → Prop) (okB : B → Prop) :
  strict_total_order okA (less (A := A)) equal_to →
  strict_total_order okB (less (A := B)) equal_to →
  strict_total_order (λ t, okA t.1 ∧ okB t.2) (less (A := A * B)) equal_to.
Proof.
  intros [HtriA HltA HeqA HleA HelA] [HtriB HltB HeqB HleB HelB].
  split; unfold less, equal_to, tuple_cons_less, tuple_cons_equal_to.
  - intros [a1 b1] [a2 b2] [Ha1 Hb1] [Ha2 Hb2]; cbn [fst snd] in *.
    pose proof (HtriB b1 b2 Hb1 Hb2) as HB.
    destruct (exactly_one_cases _ _ _ (HtriA a1 a2 Ha1 Ha2))
      as [(->&->&->)|[(->&->&->)|(->&->&->)]]; cbn; try reflexivity. exact HB.
  - intros [a1 b1] [a2 b2] [a3 b3] [Ha1 Hb1] [Ha2 Hb2] [Ha3 Hb3]; cbn [fst snd] in *.
    pose proof (HltA a1 a2 a3 Ha1 Ha2 Ha3) as Hlt.
    pose proof (HleA a1 a2 a3 Ha1 Ha2 Ha3) as Hle.
    pose proof (HelA a1 a2 a3 Ha1 Ha2 Ha3) as Hel.
    pose proof (HeqA a1 a2 a3 Ha1 Ha2 Ha3) as Heq.
    pose proof (HltB b1 b2 b3 Hb1 Hb2 Hb3) as HB.
    lexicographic_cases HtriA a1 a2 a3 Ha1 Ha2 Ha3.
  - intros [a1 b1] [a2 b2] [a3 b3] [Ha1 Hb1] [Ha2 Hb2] [Ha3 Hb3]; cbn [fst snd] in *.
    rewrite !andb_true_iff. intros [? ?] [? ?]. split.
    + by apply (HeqA a1 a2 a3).
    + by apply (HeqB b1 b2 b3).
  - intros [a1 b1] [a2 b2] [a3 b3] [Ha1 Hb1] [Ha2 Hb2] [Ha3 Hb3]; cbn [fst snd] in *.
    pose proof (HltA a1 a2 a3 Ha1 Ha2 Ha3) as Hlt.
    pose proof (HleA a1 a2 a3 Ha1 Ha2 Ha3) as Hle.
    pose proof (HelA a1 a2 a3 Ha1 Ha2 Ha3) as Hel.
    pose proof (HeqA a1 a2 a3 Ha1 Ha2 Ha3) as Heq.
    pose proof (HleB b1 b2 b3 Hb1 Hb2 Hb3) as HB.
    lexicographic_cases HtriA a1 a2 a3 Ha1 Ha2 Ha3.
  - intros [a1 b1] [a2 b2] [a3 b3] [Ha1 Hb1] [Ha2 Hb2] [Ha3 Hb3]; cbn [fst snd] in *.
    pose proof (HltA a1 a2 a3 Ha1 Ha2 Ha3) as Hlt.
    pose proof (HleA a1 a2 a3 Ha1 Ha2 Ha3) as Hle.
    pose proof (HelA a1 a2 a3 Ha1 Ha2 Ha3) as Hel.
    pose proof (HeqA a1 a2 a3 Ha1 Ha2 Ha3) as Heq.
    pose proof (HelB b1 b2 b3 Hb1 Hb2 Hb3) as HB.
    lexicographic_cases HtriA a1 a2 a3 Ha1 Ha2 Ha3.
Qed.

Lemma strict_total_order_weaken {A : Type} (ok ok' : A → Prop) (lt eq : A → A → bool) :
  (∀ x, ok' x → ok x) → strict_total_order ok lt eq → strict_total_order ok' lt eq.
Proof.
  intros Hok [Htri Hlt Heq Hle Hel]. split; intros.
  - apply Htri; auto.
  - apply (Hlt x y z); auto.
  - apply (Heq x y z); auto.
  - apply (Hle x y z); auto.
  - apply (Hel x y z); auto.
Qed.

(** The tuples that [std::tie] builds from configurations with a proper
    selectivity are strictly and totally ordered. *)
Lemma tie_strict_total_order :
  strict_total_order (λ t, is_nan t.2.2.2.2.2.1 = false)
    (less (A := string * (N * (N * (option N * (option N * (float * (bool * (N * unit)))))))))
    equal_to.
Proof.
  eapply strict_total_order_weaken;
    [|exact (tuple_cons_strict_total_order _ _ string_strict_total_order
              (tuple_cons_strict_total_order _ _ N_strict_total_order
              (tuple_cons_strict_total_order _ _ N_strict_total_order
              (tuple_cons_strict_total_order _ _
                 (optional_strict_total_order _ N_strict_total_order)
              (tuple_cons_strict_total_order _ _
                 (optional_strict_total_order _ N_strict_total_order)
              (tuple_cons_strict_total_order _ _ float_strict_total_order
              (tuple_cons_strict_total_order _ _ bool_strict_total_order
              (tuple_cons_strict_total_order _ _ N_strict_total_order
                 tuple_nil_strict_total_order))))))))].
  intros (t1 & t2 & t3 & t4 & t5 & t6 & t7 & t8 & []) Hnan. cbn in *.
  unfold always. repeat split; done.
Qed.

Lemma less_tuple_cons {A B : Type} `{Less A} `{Less B} (x y : A) (r s : B) :
  less (x, r) (y, s) = less x y || (negb (less y x) && less r s).
Proof. reflexivity. Qed.

Lemma lexicographic_step (lt_xy eq_xy lt_yx rest : bool) :
  exactly_one lt_xy eq_xy lt_yx = true →
  lt_xy || (negb lt_yx && rest) = lt_xy || (eq_xy && rest).
Proof. by destruct lt_xy, eq_xy, lt_yx. Qed.

Lemma operator_lt_lexicographic (a b : CalibrationQueryGeneratorPredicateConfiguration) :
  valid_configuration a → valid_configuration b →
  operator_lt a b = lexicographic_lt a b.
Proof.
  intros Ha Hb. unfold operator_lt, lexicographic_lt, tie.
  rewrite !less_tuple_cons. change (less tt tt) with false.
  rewrite andb_false_r, orb_false_r.
  rewrite (lexicographic_step _ (equal_to (table_name a) (table_name b)))
    by (by apply string_strict_total_order).
  rewrite (lexicographic_step _ (equal_to (data_type a) (data_type b)))
    by (by apply N_strict_total_order).
  rewrite (lexicographic_step _ (equal_to (first_encoding_type a) (first_encoding_type b)))
    by (by apply N_strict_total_order).
  rewrite (lexicographic_step _ (equal_to (second_encoding_type a) (second_encoding_type b)))
    by (by apply (optional_strict_total_order _ N_strict_total_order)).
  rewrite (lexicographic_step _ (equal_to (third_encoding_type a) (third_encoding_type b)))
    by (by apply (optional_strict_total_order _ N_strict_total_order)).
  rewrite (lexicographic_step _ (equal_to (selectivity a) (selectivity b)))
    by (by apply float_strict_total_order).
  rewrite (lexicographic_step _ (equal_to (reference_column a) (reference_column b)))
    by (by apply bool_strict_total_order).
  reflexivity.
Qed.

(** C9 as stated fails: a configuration whose selectivity is NaN is neither
    less than nor equal to itself, so for it none of [a < b], [a == b],
    [b < a] holds. *)
Lemma nan_configuration_breaks_trichotomy :
  operator_lt nan_configuration nan_configuration = false ∧
  operator_eq nan_configuration nan_configuration = false ∧
  exactly_one (operator_lt nan_configuration nan_configuration)
              (operator_eq nan_configuration nan_configuration)
              (operator_lt nan_configuration nan_configuration) = false.
Proof. repeat split; vm_compute; reflexivity. Qed.

(** C9, amended: on configurations whose selectivity is not NaN,
    [operator<] is the lexicographic order over the fields in declaration
    order, and it is a strict total order that agrees with [operator==]:
    exactly one of [a < b], [a == b], [b < a] holds, no configuration is less
    than itself, and [<] is transitive.  Any two such records of a sequence
    are therefore comparable. *)
Theorem operator_lt_strict_total_order
    (a b c : CalibrationQueryGeneratorPredicateConfiguration) :
  valid_configuration a → valid_configuration b → valid_configuration c →
  operator_lt a b = lexicographic_lt a b ∧
  exactly_one (operator_lt a b) (operator_eq a b) (operator_lt b a) = true ∧
  operator_lt a a = false ∧
  (operator_lt a b = true → operator_lt b c = true → operator_lt a c = true).
Proof.
  intros Ha Hb Hc. pose proof tie_strict_total_order as [Htri Hlt _ _ _].
  split; [by apply operator_lt_lexicographic|].
  split; [by apply (Htri (tie a) (tie b))|].
  split.
  - specialize (Htri (tie a) (tie a) Ha Ha). unfold operator_lt.
    by destruct (less (tie a) (tie a)), (equal_to (tie a) (tie a)).
  - by apply (Hlt (tie a) (tie b) (tie c)).
Qed.

Lemma operator_lt_strict_total_order_witness :
  operator_lt (half_configuration "lineitem" 1000) (half_configuration "orders" 10)
    = lexicographic_lt (half_configuration "lineitem" 1000) (half_configuration "orders" 10) ∧
  exactly_one
    (operator_lt (half_configuration "lineitem" 1000) (half_configuration "orders" 10))
    (operator_eq (half_configuration "lineitem" 1000) (half_configuration "orders" 10))
    (operator_lt (half_configuration "orders" 10) (half_configuration "lineitem" 1000)) = true.
Proof.
  pose proof (operator_lt_strict_total_order
                (half_configuration "lineitem" 1000) (half_configuration "orders" 10)
                (half_configuration "orders" 20) eq_refl eq_refl eq_refl) as (H1 & H2 & _).
  exact (conj H1 H2).
Defined.

(** ** Further properties of the join node *)

(** *** Construction *)

(** X1: whichever constructor returns a node, the node carries the mode
    asked for, is a [Cross] join exactly when it has no predicates, and has
    neither input set. *)
Theorem constructed_join_node (mode : JoinMode) (predicates : list Expression)
    (predicate : Expression) (n : JoinNode) :
  JoinNode_new mode = Returns n ∨
  JoinNode_new_predicates mode predicates = Returns n ∨
  JoinNode_new_predicate mode predicate = Returns n →
  join_mode n = mode ∧ well_formed n ∧
  left_input n = nullptr ∧ right_input n = nullptr.
Proof.
  unfold JoinNode_new_predicate.
  rewrite JoinNode_new_cases, !JoinNode_new_predicates_cases.
  intros [H|[H|H]]; repeat case_bool_decide; try discriminate;
    injection H as <-; (split; [reflexivity|]); (split; [|split; reflexivity]);
    split; simpl; intros; try contradiction; try discriminate; done.
Qed.

Lemma constructed_join_node_witness :
  join_mode (mk_join Inner [Examples.a_eq_b]) = Inner ∧
  well_formed (mk_join Inner [Examples.a_eq_b]) ∧
  left_input (mk_join Inner [Examples.a_eq_b]) = nullptr ∧
  right_input (mk_join Inner [Examples.a_eq_b]) = nullptr.
Proof.
  exact (constructed_join_node Inner [Examples.a_eq_b] Examples.a_eq_b
           (mk_join Inner [Examples.a_eq_b]) (or_intror (or_introl eq_refl))).
Defined.

(** *** Output columns and nullability *)

(** X2: while an input is missing, [column_expressions] and
    [is_column_nullable] fail their assertion, for every mode, predicate
    list and column id. *)
Theorem derived_columns_need_both_inputs (n : JoinNode) :
  left_input n = nullptr ∨ right_input n = nullptr →
  violates (column_expressions n) ∧ ∀ i, violates (is_column_nullable n i).
Proof.
  intros H. unfold column_expressions, is_column_nullable, violates, nullptr in *.
  destruct H as [-> | ->]; destruct (left_input n), (right_input n); eauto.
Qed.

Lemma derived_columns_need_both_inputs_witness :
  violates (column_expressions (mk_join Inner [Examples.a_eq_b])) ∧
  ∀ i, violates (is_column_nullable (mk_join Inner [Examples.a_eq_b]) i).
Proof.
  exact (derived_columns_need_both_inputs (mk_join Inner [Examples.a_eq_b])
           (or_introl eq_refl)).
Defined.

Lemma column_expressions_value (n : JoinNode) (l r : AbstractLQPNode)
    (left_columns right_columns : list (shared_ptr Expression)) :
  left_input n = Some l → right_input n = Some r →
  node_column_expressions l = Returns left_columns →
  node_column_expressions r = Returns right_columns →
  column_expressions n =
    Returns (if bool_decide (join_mode n ∈ [Semi; AntiNullAsTrue; AntiNullAsFalse])
             then left_columns else left_columns ++ right_columns).
Proof.
  intros Hl Hr HL HR. unfold column_expressions.
  rewrite Hl, Hr, HL. run_outcome. rewrite HR. run_outcome.
  pose proof (std_copy_fresh nullptr left_columns []) as Hsemi.
  cbn [length replicate] in Hsemi. rewrite app_nil_r in Hsemi.
  destruct (join_mode n); cbn [bool_decide decide_rel andb];
    repeat case_bool_decide; try congruence; cbn [andb];
    try (exfalso; set_solver);
    try (rewrite std_copy_fresh, std_copy_tail; reflexivity);
    try (rewrite Hsemi; reflexivity).
Qed.

Lemma is_column_nullable_value (n : JoinNode) (l r : AbstractLQPNode)
    (left_columns : list (shared_ptr Expression)) (i : ColumnID) :
  left_input n = Some l → right_input n = Some r →
  node_column_expressions l = Returns left_columns →
  0 ≤ i < 2 ^ ColumnID_bits →
  is_column_nullable n i =
    if i <? Z.of_nat (length left_columns)
    then (if bool_decide (join_mode n ∈ [Right; FullOuter]) then Returns true
          else node_is_column_nullable l i)
    else (if bool_decide (join_mode n ∈ [Left; FullOuter]) then Returns true
          else node_is_column_nullable r (i - Z.of_nat (length left_columns))).
Proof.
  intros Hl Hr HL Hi. unfold is_column_nullable.
  rewrite Hl, Hr, HL. run_outcome.
  destruct (Z.ltb_spec i (Z.of_nat (length left_columns))) as [Hlt|Hge].
  - destruct (join_mode n); cbn [bool_decide decide_rel andb negb];
      repeat case_bool_decide; try congruence; try reflexivity; exfalso; set_solver.
  - rewrite right_column_id_no_wrap by lia.
    destruct (join_mode n); cbn [bool_decide decide_rel andb negb];
      repeat case_bool_decide; try congruence; try reflexivity; exfalso; set_solver.
Qed.

(** X3: in the modes that pad nothing with nulls (all but [Left], [Right]
    and [FullOuter]), every output column in range is the column of one
    input, and [is_column_nullable] asks exactly that input about exactly
    that column: the left input and index [i] below the left column count,
    the right input and index [i] minus that count from there on. *)
Theorem output_column_nullability_follows_origin (n : JoinNode) (l r : AbstractLQPNode)
    (left_columns right_columns columns : list (shared_ptr Expression)) (i : ColumnID) :
  left_input n = Some l → right_input n = Some r →
  node_column_expressions l = Returns left_columns →
  node_column_expressions r = Returns right_columns →
  join_mode n ∉ [Left; Right; FullOuter] →
  column_expressions n = Returns columns →
  0 ≤ i < 2 ^ ColumnID_bits → (Z.to_nat i < length columns)%nat →
  let left_count := Z.of_nat (length left_columns) in
  if i <? left_count
  then columns !! Z.to_nat i = left_columns !! Z.to_nat i ∧
       is_column_nullable n i = node_is_column_nullable l i
  else columns !! Z.to_nat i = right_columns !! Z.to_nat (i - left_count) ∧
       is_column_nullable n i = node_is_column_nullable r (i - left_count).
Proof.
  intros Hl Hr HL HR Hmode Hcols Hi Hrange left_count.
  rewrite (column_expressions_value n l r left_columns right_columns) in Hcols by done.
  injection Hcols as <-.
  rewrite (is_column_nullable_value n l r left_columns) by done. fold left_count.
  assert (bool_decide (join_mode n ∈ [Right; FullOuter]) = false) as ->
    by (apply bool_decide_eq_false_2; intros H; apply Hmode; set_solver).
  assert (bool_decide (join_mode n ∈ [Left; FullOuter]) = false) as ->
    by (apply bool_decide_eq_false_2; intros H; apply Hmode; set_solver).
  unfold left_count in *.
  destruct (Z.ltb_spec i (Z.of_nat (length left_columns))) as [Hlt|Hge];
    (split; [|reflexivity]).
  - case_bool_decide; [reflexivity|]. apply lookup_app_l. lia.
  - case_bool_decide; [lia|].
    rewrite lookup_app_r by lia. f_equal. lia.
Qed.

Lemma output_column_nullability_follows_origin_witness :
  [Some Examples.L_a; Some Examples.L_c; Some Examples.R_b; Some Examples.R_d] !! 3%nat
    = [Some Examples.R_b; Some Examples.R_d] !! 1%nat ∧
  is_column_nullable (Examples.join Inner [Examples.a_eq_b] Examples.L Examples.R) 3
    = node_is_column_nullable Examples.R 1.
Proof.
  assert (Inner ∉ [Left; Right; FullOuter]) as Hmode by set_solver.
  assert (0 ≤ 3 < 2 ^ ColumnID_bits) as Hi by (split; [discriminate|reflexivity]).
  assert (Z.to_nat 3 < 4)%nat as Hrange by (simpl; lia).
  exact (output_column_nullability_follows_origin
           (Examples.join Inner [Examples.a_eq_b] Examples.L Examples.R)
           Examples.L Examples.R _ _ _ 3 eq_refl eq_refl eq_refl eq_refl
           Hmode eq_refl Hi Hrange).
Defined.

(** X4: a join never turns a nullable input column into a non-nullable
    output column: if the input a column comes from reports it nullable, so
    does the join, in every mode. *)
Theorem join_keeps_nullable_columns_nullable (n : JoinNode) (l r : AbstractLQPNode)
    (left_columns : list (shared_ptr Expression)) (i : ColumnID) :
  left_input n = Some l → right_input n = Some r →
  node_column_expressions l = Returns left_columns →
  0 ≤ i < 2 ^ ColumnID_bits →
  let left_count := Z.of_nat (length left_columns) in
  (i < left_count → node_is_column_nullable l i = Returns true →
     is_column_nullable n i = Returns true) ∧
  (left_count ≤ i → node_is_column_nullable r (i - left_count) = Returns true →
     is_column_nullable n i = Returns true).
Proof.
  intros Hl Hr HL Hi left_count.
  rewrite (is_column_nullable_value n l r left_columns) by done. fold left_count.
  split; intros Hside Hnullable.
  - rewrite (proj2 (Z.ltb_lt _ _)) by done. by case_bool_decide.
  - rewrite (proj2 (Z.ltb_ge _ _)) by done. by case_bool_decide.
Qed.

Lemma join_keeps_nullable_columns_nullable_witness :
  is_column_nullable (Examples.join Right [Examples.a_eq_b] Examples.L Examples.R) 1
  = Returns true.
Proof.
  assert (0 ≤ 1 < 2 ^ ColumnID_bits) as Hi by (split; [discriminate|reflexivity]).
  exact (proj1 (join_keeps_nullable_columns_nullable
                  (Examples.join Right [Examples.a_eq_b] Examples.L Examples.R)
                  Examples.L Examples.R _ 1 eq_refl eq_refl eq_refl Hi)
           eq_refl eq_refl).
Defined.

(** *** Unique constraints *)

Ltac run_outcome_in H :=
  cbn [mbind outcome_mbind outcome_bind mret outcome_mret deref vector_front] in H.

(** X5: outside [Semi], [constraints] never returns a constraint that is
    not a constraint of one of the two inputs. *)
Theorem constraints_come_from_inputs (n : JoinNode) (l r : AbstractLQPNode)
    (U_L U_R U : ExpressionsConstraintDefinitions) :
  join_mode n ≠ Semi →
  left_input n = Some l → right_input n = Some r →
  node_constraints l = Returns (Some U_L) →
  node_constraints r = Returns (Some U_R) →
  constraints n = Returns (Some U) →
  U ⊆ U_L ∪ U_R.
Proof.
  intros Hmode Hl Hr HUL HUR Hc. unfold constraints in Hc.
  rewrite bool_decide_eq_false_2 in Hc by done.
  case_bool_decide.
  { assert (U = ∅) as -> by congruence. set_solver. }
  destruct (join_predicates n) as [|p ps]; [discriminate Hc|].
  run_outcome_in Hc.
  destruct (dynamic_pointer_cast_BinaryPredicateExpression p) as [[[c a] b]|];
    [|discriminate Hc].
  case_bool_decide; [discriminate Hc|].
  rewrite Hl, Hr in Hc. run_outcome_in Hc.
  destruct (node_has_unique_constraint l {[a]}) as [ul| |]; try discriminate Hc.
  run_outcome_in Hc.
  destruct (node_has_unique_constraint r {[b]}) as [ur| |]; try discriminate Hc.
  run_outcome_in Hc. rewrite HUL, HUR in Hc. run_outcome_in Hc.
  rewrite !emplace_all_union in Hc.
  destruct (join_mode n), ul, ur; cbn [andb] in Hc; try discriminate Hc;
    match type of Hc with
    | Returns (Some ?X) = Returns (Some U) =>
        assert (U = X) as -> by congruence; set_solver
    end.
Qed.

Lemma constraints_come_from_inputs_witness :
  ({[ {[Examples.R_d]} ]} : ExpressionsConstraintDefinitions)
  ⊆ {[ {[Examples.L_a]} ]} ∪ {[ {[Examples.R_d]} ]}.
Proof.
  assert (Inner ≠ Semi) as Hmode by discriminate.
  assert (node_has_unique_constraint Examples.L {[Examples.L_a]} = Returns true) as Hul
    by (simpl; f_equal; by apply bool_decide_eq_true_2).
  assert (node_has_unique_constraint Examples.R_key_d {[Examples.R_b]} = Returns false) as Hur
    by (simpl; f_equal; apply bool_decide_eq_false_2; intros H;
        apply singleton_inj in H; discriminate H).
  assert (constraints (Examples.join Inner [Examples.a_eq_b] Examples.L Examples.R_key_d)
          = Returns (Some {[ {[Examples.R_d]} ]})) as Hc
    by exact (constraints_single_equals
                (Examples.join Inner [Examples.a_eq_b] Examples.L Examples.R_key_d)
                Examples.L Examples.R_key_d
                Examples.L_a Examples.R_b true false Hmode eq_refl eq_refl eq_refl Hul Hur).
  exact (constraints_come_from_inputs
           (Examples.join Inner [Examples.a_eq_b] Examples.L Examples.R_key_d)
           Examples.L Examples.R_key_d _ _ _ Hmode eq_refl eq_refl eq_refl eq_refl Hc).
Defined.

(** X6: the constraints of an inner equi-join do not depend on which input
    is called left: joining [l] and [r] on [a = b] and joining [r] and [l]
    on [b = a] give the same result. *)
Theorem inner_equi_join_constraints_symmetric (l r : AbstractLQPNode) (a b : Expression)
    (left_unique right_unique : bool)
    (left_ptr right_ptr : shared_ptr ExpressionsConstraintDefinitions) :
  node_has_unique_constraint l {[a]} = Returns left_unique →
  node_has_unique_constraint r {[b]} = Returns right_unique →
  node_constraints l = Returns left_ptr →
  node_constraints r = Returns right_ptr →
  constraints (wired_join Inner [BinaryPredicateExpression Equals a b] l r)
  = constraints (wired_join Inner [BinaryPredicateExpression Equals b a] r l).
Proof.
  intros Hul Hur Hpl Hpr.
  assert (Inner ≠ Semi) as Hmode by discriminate.
  rewrite (constraints_single_equals _ l r a b left_unique right_unique) by done.
  rewrite (constraints_single_equals _ r l b a right_unique left_unique) by done.
  cbn [wired_join set_left_input set_right_input mk_join join_mode].
  rewrite Hpl, Hpr. run_outcome.
  destruct left_unique, right_unique, left_ptr as [U_L|], right_ptr as [U_R|];
    cbn [andb]; run_outcome; try reflexivity.
  do 2 f_equal. set_solver.
Qed.

Lemma inner_equi_join_constraints_symmetric_witness :
  constraints (wired_join Inner [BinaryPredicateExpression Equals Examples.L_a Examples.R_b]
                 Examples.L Examples.R)
  = constraints (wired_join Inner [BinaryPredicateExpression Equals Examples.R_b Examples.L_a]
                   Examples.R Examples.L).
Proof.
  assert (node_has_unique_constraint Examples.L {[Examples.L_a]} = Returns true) as Hul
    by (simpl; f_equal; by apply bool_decide_eq_true_2).
  assert (node_has_unique_constraint Examples.R {[Examples.R_b]} = Returns true) as Hur
    by (simpl; f_equal; by apply bool_decide_eq_true_2).
  exact (inner_equi_join_constraints_symmetric Examples.L Examples.R
           Examples.L_a Examples.R_b true true _ _ Hul Hur eq_refl eq_refl).
Defined.

(** X7: unlike [column_expressions], [constraints] does not assert that
    its inputs are set: outside [Semi], with a single [Equals] predicate, a
    missing left input, or a missing right input once the left one has
    answered, is a null pointer dereference. *)
Theorem constraints_dereferences_missing_input (n : JoinNode) (a b : Expression) :
  join_mode n ≠ Semi →
  join_predicates n = [BinaryPredicateExpression Equals a b] →
  (left_input n = nullptr → constraints n = Undefined) ∧
  (∀ l left_unique, left_input n = Some l →
     node_has_unique_constraint l {[a]} = Returns left_unique →
     right_input n = nullptr → constraints n = Undefined).
Proof.
  intros Hmode Hpreds. unfold constraints.
  rewrite bool_decide_eq_false_2 by done.
  rewrite Hpreds. cbn [length]. rewrite bool_decide_eq_false_2 by lia.
  run_outcome. cbn [dynamic_pointer_cast_BinaryPredicateExpression].
  rewrite bool_decide_eq_false_2 by (intros H; by apply H).
  split.
  - intros ->. reflexivity.
  - intros l left_unique -> Hul ->. run_outcome. rewrite Hul. reflexivity.
Qed.

Lemma constraints_dereferences_missing_input_witness :
  constraints (mk_join Inner [Examples.a_eq_b]) = Undefined.
Proof.
  assert (Inner ≠ Semi) as Hmode by discriminate.
  exact (proj1 (constraints_dereferences_missing_input
                  (mk_join Inner [Examples.a_eq_b]) Examples.L_a Examples.R_b
                  Hmode eq_refl) eq_refl).
Defined.

(** X8: outside [Semi], [constraints] fails no assertion of its own: when
    the constraint methods of the inputs do not throw, neither does it (the
    [Fail] calls of the switch are never reached). *)
Theorem constraints_raises_nothing_itself (n : JoinNode) :
  join_mode n ≠ Semi →
  input_never_violates (left_input n) → input_never_violates (right_input n) →
  ¬ violates (constraints n).
Proof.
  intros Hmode Hleft Hright [message Hc]. unfold constraints in Hc.
  rewrite bool_decide_eq_false_2 in Hc by done.
  case_bool_decide; [discriminate Hc|].
  destruct (join_predicates n) as [|p ps]; [discriminate Hc|].
  run_outcome_in Hc.
  destruct (dynamic_pointer_cast_BinaryPredicateExpression p) as [[[c a] b]|];
    [|discriminate Hc].
  case_bool_decide; [discriminate Hc|].
  destruct (left_input n) as [l|]; [|discriminate Hc].
  destruct (Hleft l eq_refl) as [Hlc Hlu]. run_outcome_in Hc.
  destruct (node_has_unique_constraint l {[a]}) as [ul|m|] eqn:Hul;
    [|by destruct (Hlu {[a]}); rewrite Hul; eexists|discriminate Hc].
  run_outcome_in Hc.
  destruct (right_input n) as [r|]; [|discriminate Hc].
  destruct (Hright r eq_refl) as [Hrc Hru]. run_outcome_in Hc.
  destruct (node_has_unique_constraint r {[b]}) as [ur|m|] eqn:Hur;
    [|by destruct (Hru {[b]}); rewrite Hur; eexists|discriminate Hc].
  run_outcome_in Hc.
  destruct (node_constraints l) as [[U_L|]|m|];
    try (by destruct Hlc; eexists);
    destruct (node_constraints r) as [[U_R|]|m'|];
    try (by destruct Hrc; eexists);
    destruct (join_mode n), ul, ur; cbn [andb] in Hc; run_outcome_in Hc;
    first [discriminate Hc | contradiction].
Qed.

Lemma constraints_raises_nothing_itself_witness :
  ¬ violates (constraints (Examples.join Left [Examples.a_eq_b] Examples.L Examples.R)).
Proof.
  apply constraints_raises_nothing_itself.
  - discriminate.
  - intros l [= <-]. split; [|intros columns]; intros [m Hm]; discriminate Hm.
  - intros r [= <-]. split; [|intros columns]; intros [m Hm]; discriminate Hm.
Defined.

(** *** Shallow copy, equality and hash *)

Lemma _on_shallow_copy_returns (n copy : JoinNode) (node_mapping : LQPNodeMapping) :
  _on_shallow_copy n node_mapping = Returns copy →
  well_formed n ∧ well_formed copy ∧ join_mode copy = join_mode n ∧
  left_input copy = nullptr ∧ right_input copy = nullptr.
Proof.
  unfold _on_shallow_copy. case_bool_decide as Hpreds; cbn [negb].
  - rewrite JoinNode_new_cases. case_bool_decide as Hmode; [|discriminate].
    intros [= <-]. by repeat split.
  - destruct (expressions_copy_and_adapt_to_different_lqp _ _) as [predicates| |];
      run_outcome; try discriminate.
    rewrite JoinNode_new_predicates_cases.
    repeat case_bool_decide; try discriminate.
    intros [= <-]. repeat split; simpl; intros; try contradiction; done.
Qed.

(** X9: the shallow hash agrees with shallow equality and survives a
    shallow copy: two nodes that [_on_shallow_equals] accepts, under any
    mapping, have the same [_on_shallow_hash], and so have a node and its
    copy. *)
Theorem shallow_hash_agrees_with_shallow_equals (hash_value : JoinMode → N)
    (n rhs : JoinNode) (node_mapping : LQPNodeMapping) :
  (_on_shallow_equals n rhs node_mapping = Returns true →
     _on_shallow_hash hash_value n = _on_shallow_hash hash_value rhs) ∧
  (∀ copy, _on_shallow_copy n node_mapping = Returns copy →
     _on_shallow_hash hash_value copy = _on_shallow_hash hash_value n).
Proof.
  unfold _on_shallow_hash. split.
  - unfold _on_shallow_equals. case_bool_decide as Hmode; [discriminate|].
    intros _. f_equal. by destruct (decide (join_mode n = join_mode rhs)).
  - intros copy Hcopy. f_equal. by apply (_on_shallow_copy_returns n copy node_mapping).
Qed.

Lemma shallow_hash_agrees_with_shallow_equals_witness :
  _on_shallow_hash (λ _, 7%N) (mk_join Cross [])
  = _on_shallow_hash (λ _, 7%N) (Examples.join Cross [] Examples.L Examples.R).
Proof.
  exact (proj1 (shallow_hash_agrees_with_shallow_equals (λ _, 7%N)
                  (mk_join Cross []) (Examples.join Cross [] Examples.L Examples.R) ∅)
           eq_refl).
Defined.

(** X10: [_on_shallow_copy] returns only for a node that respects the
    constructors' invariant ([Cross] exactly when there is no predicate);
    the copy respects it too, has the same mode and has no inputs, so that
    it answers [column_expressions] with a failed assertion until the caller
    wires it. *)
Theorem shallow_copy_is_unwired (n copy : JoinNode) (node_mapping : LQPNodeMapping) :
  _on_shallow_copy n node_mapping = Returns copy →
  well_formed n ∧ well_formed copy ∧ join_mode copy = join_mode n ∧
  left_input copy = nullptr ∧ right_input copy = nullptr ∧
  violates (column_expressions copy).
Proof.
  intros Hcopy.
  destruct (_on_shallow_copy_returns n copy node_mapping Hcopy)
    as (Hn & Hc & Hmode & Hl & Hr).
  repeat (split; [done|]).
  unfold column_expressions. rewrite Hl. by eexists.
Qed.

Lemma shallow_copy_is_unwired_witness :
  well_formed (Examples.join Cross [] Examples.L Examples.R) ∧
  well_formed (mk_join Cross []) ∧
  violates (column_expressions (mk_join Cross [])).
Proof.
  pose proof (shallow_copy_is_unwired
                (Examples.join Cross [] Examples.L Examples.R) (mk_join Cross []) ∅ eq_refl)
    as (Hn & Hc & _ & _ & _ & Hv).
  exact (conj Hn (conj Hc Hv)).
Defined.

(** X17: a shallow copy wired to the inputs of the original has the
    output columns and the nullability of the original, whatever the node
    mapping was: both depend on the join mode and the inputs only. *)
Theorem rewired_shallow_copy_keeps_columns (n copy : JoinNode)
    (node_mapping : LQPNodeMapping) :
  _on_shallow_copy n node_mapping = Returns copy →
  let rewired := set_right_input (set_left_input copy (left_input n)) (right_input n) in
  column_expressions rewired = column_expressions n ∧
  ∀ i, is_column_nullable rewired i = is_column_nullable n i.
Proof.
  intros Hcopy rewired.
  destruct (_on_shallow_copy_returns n copy node_mapping Hcopy) as (_ & _ & Hmode & _).
  unfold column_expressions, is_column_nullable, rewired.
  cbn [set_right_input set_left_input join_mode left_input right_input].
  rewrite Hmode. split; [reflexivity|]. intros i. reflexivity.
Qed.

Lemma rewired_shallow_copy_keeps_columns_witness :
  column_expressions
    (set_right_input (set_left_input (mk_join Cross []) (Some Examples.L)) (Some Examples.R))
  = column_expressions (Examples.join Cross [] Examples.L Examples.R).
Proof.
  exact (proj1 (rewired_shallow_copy_keeps_columns
                  (Examples.join Cross [] Examples.L Examples.R) (mk_join Cross []) ∅
                  eq_refl)).
Defined.

(** *** Description *)

Lemma string_append_assoc (s1 s2 s3 : string) :
  (s1 +:+ s2) +:+ s3 = s1 +:+ (s2 +:+ s3).
Proof.
  induction s1 as [|c s1 IH]; [reflexivity|].
  change (String c ((s1 +:+ s2) +:+ s3) = String c (s1 +:+ (s2 +:+ s3))).
  by f_equal.
Qed.

Lemma string_append_empty_r (s : string) : s +:+ "" = s.
Proof.
  induction s as [|c s IH]; [reflexivity|].
  change (String c (s +:+ "") = String c s). by f_equal.
Qed.

Lemma string_concat_cons (x : string) (l : list string) :
  String.concat "" (x :: l) = x +:+ String.concat "" l.
Proof. destruct l; [symmetry; apply string_append_empty_r|reflexivity]. Qed.

(** X11: the description of a join node is the header [[Join] Mode: ]
    with the mode, followed by the predicates in their order, each between
    brackets after a blank; the inputs leave no trace in it. *)
Theorem description_format {DescriptionMode ExpressionDescriptionMode : Type}
    (join_mode_to_string : JoinMode → string)
    (_expression_description_mode : DescriptionMode → ExpressionDescriptionMode)
    (expression_description : Expression → ExpressionDescriptionMode → string)
    (n : JoinNode) (mode : DescriptionMode) :
  description join_mode_to_string _expression_description_mode expression_description n mode
  = "[Join] Mode: " +:+ join_mode_to_string (join_mode n)
    +:+ bracketed expression_description (_expression_description_mode mode)
          (join_predicates n).
Proof.
  unfold description, bracketed.
  change ("" +:+ "[Join] Mode: ") with "[Join] Mode: ".
  rewrite <- string_append_assoc.
  generalize ("[Join] Mode: " +:+ join_mode_to_string (join_mode n)) as stream.
  induction (join_predicates n) as [|p ps IH]; intros stream; cbn [foldl map].
  - symmetry. apply string_append_empty_r.
  - rewrite IH, string_concat_cons. by rewrite !string_append_assoc.
Qed.

(** ** Further properties of the configuration comparison *)

Lemma float_equal_to_same_number (x y : float) :
  equal_to x y = true ↔ same_number x y.
Proof.
  unfold equal_to, float_equal_to, SFeqb, same_number.
  destruct x as [[]|[]| |[] mx ex], y as [[]|[]| |[] my ey]; cbn;
    try (split; [discriminate|intros [? [?|[? ?]]]; discriminate]);
    try (split; [intros _; split; [reflexivity|first [by left|by right]]|reflexivity]).
  all: change (Pos.compare_cont Eq mx my) with (Pos.compare mx my);
    destruct (Z.compare_spec ex ey) as [He|He|He];
    destruct (Pos.compare_spec mx my) as [Hm|Hm|Hm]; cbn; subst;
    try (split; [intros _; split; [reflexivity|by left]|reflexivity]);
    (split; [discriminate|intros [_ [Heq|[? ?]]]; [injection Heq; intros; lia|discriminate]]).
Qed.

Lemma optional_equal_to_eq (x y : option N) : equal_to x y = true ↔ x = y.
Proof.
  unfold equal_to, optional_equal_to, equal_to, N_equal_to.
  destruct x as [x|], y as [y|]; try (split; [discriminate|congruence || discriminate]).
  - rewrite N.eqb_eq. split; congruence.
  - split; reflexivity.
Qed.

Lemma equal_to_tuple_cons {A B : Type} `{EqualTo A} `{EqualTo B} (x y : A) (r s : B) :
  equal_to (x, r) (y, s) = equal_to x y && equal_to r s.
Proof. reflexivity. Qed.

Lemma string_equal_to_eq (x y : string) : equal_to x y = true ↔ x = y.
Proof. apply String.eqb_eq. Qed.

Lemma N_equal_to_eq (x y : N) : equal_to x y = true ↔ x = y.
Proof. apply N.eqb_eq. Qed.

Lemma bool_equal_to_eq (x y : bool) : equal_to x y = true ↔ x = y.
Proof. apply Bool.eqb_true_iff. Qed.

Lemma operator_eq_fields (a b : CalibrationQueryGeneratorPredicateConfiguration) :
  operator_eq a b = true ↔
  table_name a = table_name b ∧ data_type a = data_type b ∧
  first_encoding_type a = first_encoding_type b ∧
  second_encoding_type a = second_encoding_type b ∧
  third_encoding_type a = third_encoding_type b ∧
  same_number (selectivity a) (selectivity b) ∧
  reference_column a = reference_column b ∧ row_count a = row_count b.
Proof.
  unfold operator_eq, tie.
  rewrite !equal_to_tuple_cons, !andb_true_iff.
  rewrite string_equal_to_eq, !N_equal_to_eq, !optional_equal_to_eq,
    float_equal_to_same_number, bool_equal_to_eq.
  change (equal_to tt tt) with true. tauto.
Qed.

Lemma same_number_not_nan (x y : float) :
  same_number x y → is_nan x = false ∧ is_nan y = false.
Proof.
  intros [Hx [<-|[_ Hy]]]; split; try done. by destruct y.
Qed.

Lemma same_number_sym (x y : float) : same_number x y → same_number y x.
Proof.
  intros H. destruct (same_number_not_nan x y H) as [_ Hy].
  destruct H as [_ [->|[? ?]]]; split; auto.
Qed.

Lemma same_number_trans (x y z : float) :
  same_number x y → same_number y z → same_number x z.
Proof.
  intros [Hx [->|[Hzx Hzy]]] [Hy [->|[Hzy' Hzz]]]; split; auto.
Qed.

Lemma operator_eq_valid (a b : CalibrationQueryGeneratorPredicateConfiguration) :
  operator_eq a b = true → valid_configuration a ∧ valid_configuration b.
Proof.
  rewrite operator_eq_fields. intros (_ & _ & _ & _ & _ & Hs & _).
  by apply same_number_not_nan.
Qed.

(** X12: [operator==] holds exactly when the two records agree field by
    field, where two selectivities agree when they are the same number (a
    NaN agrees with nothing, the two zeros agree with each other).  So, for
    a selectivity other than zero, [a == b] says that [a] and [b] are the
    same record and the selectivity is not NaN. *)
Theorem operator_eq_is_fieldwise (a b : CalibrationQueryGeneratorPredicateConfiguration) :
  (operator_eq a b = true ↔
   table_name a = table_name b ∧ data_type a = data_type b ∧
   first_encoding_type a = first_encoding_type b ∧
   second_encoding_type a = second_encoding_type b ∧
   third_encoding_type a = third_encoding_type b ∧
   same_number (selectivity a) (selectivity b) ∧
   reference_column a = reference_column b ∧ row_count a = row_count b) ∧
  (is_zero (selectivity a) = false →
   (operator_eq a b = true ↔ a = b ∧ valid_configuration a)).
Proof.
  split; [apply operator_eq_fields|].
  intros Hzero. rewrite operator_eq_fields. unfold same_number, valid_configuration.
  destruct a, b; cbn in *. split.
  - intros (-> & -> & -> & -> & -> & [Hnan [->|[Hz _]]] & -> & ->); [done|congruence].
  - intros [[= -> -> -> -> -> -> -> ->] Hnan]. repeat split; auto.
Qed.

Lemma operator_eq_is_fieldwise_witness :
  operator_eq (half_configuration "orders" 10) (half_configuration "orders" 10) = true
  ↔ half_configuration "orders" 10 = half_configuration "orders" 10 ∧
    valid_configuration (half_configuration "orders" 10).
Proof.
  exact (proj2 (operator_eq_is_fieldwise (half_configuration "orders" 10)
                  (half_configuration "orders" 10)) eq_refl).
Defined.

(** X13: [operator==] is symmetric and transitive on all configurations,
    and a configuration equals itself exactly when its selectivity is not
    NaN. *)
Theorem operator_eq_partial_equivalence
    (a b c : CalibrationQueryGeneratorPredicateConfiguration) :
  operator_eq a b = operator_eq b a ∧
  (operator_eq a b = true → operator_eq b c = true → operator_eq a c = true) ∧
  (operator_eq a a = true ↔ valid_configuration a).
Proof.
  assert (∀ x y, operator_eq x y = true → operator_eq y x = true) as Hsym.
  { intros x y. rewrite !operator_eq_fields.
    intros (? & ? & ? & ? & ? & Hs & ? & ?).
    destruct (same_number_sym _ _ Hs) as [? ?]. repeat split; auto. }
  split; [|split].
  - destruct (operator_eq a b) eqn:Hab, (operator_eq b a) eqn:Hba; try reflexivity.
    + apply Hsym in Hab. congruence.
    + apply Hsym in Hba. congruence.
  - rewrite !operator_eq_fields.
    intros (? & ? & ? & ? & ? & Hs1 & ? & ?) (? & ? & ? & ? & ? & Hs2 & ? & ?).
    destruct (same_number_trans _ _ _ Hs1 Hs2) as [? ?].
    repeat split; auto; congruence.
  - rewrite operator_eq_fields. unfold same_number, valid_configuration.
    split; [tauto|]. intros Hnan. repeat split; auto.
Qed.

Lemma operator_eq_partial_equivalence_witness :
  operator_eq (half_configuration "orders" 10) (half_configuration "orders" 10) = true.
Proof.
  exact (proj2 (proj2 (proj2 (operator_eq_partial_equivalence
                                (half_configuration "orders" 10)
                                (half_configuration "orders" 10)
                                (half_configuration "orders" 10)))) eq_refl).
Defined.

Lemma strict_total_order_asymmetric {A : Type} (ok : A → Prop) (lt eq : A → A → bool) :
  strict_total_order ok lt eq → (∀ x, ok x) → asymmetric lt.
Proof.
  intros [Htri _ _ _ _] Hok x y Hlt.
  destruct (exactly_one_cases _ _ _ (Htri x y (Hok x) (Hok y))) as [(_&_&H)|[(H&_)|(H&_)]];
    congruence.
Qed.

Lemma float_less_asymmetric : asymmetric (less (A := float)).
Proof.
  unfold asymmetric, less, float_less, SFltb. intros x y.
  float_cases; compare_cases.
Qed.

Lemma tuple_cons_less_asymmetric {A B : Type} `{Less A} `{Less B} :
  asymmetric (less (A := A)) → asymmetric (less (A := B)) →
  asymmetric (less (A := A * B)).
Proof.
  intros HA HB [a1 b1] [a2 b2]. rewrite !less_tuple_cons.
  destruct (less a1 a2) eqn:H12.
  - intros _. rewrite (HA a1 a2 H12). reflexivity.
  - destruct (less a2 a1) eqn:H21; cbn; [discriminate|].
    intros Hb. apply (HB b1 b2 Hb).
Qed.

Lemma tie_less_asymmetric :
  asymmetric
    (less (A := string * (N * (N * (option N * (option N * (float * (bool * (N * unit))))))))).
Proof.
  assert (asymmetric (less (A := N))) as HN
    by (apply (strict_total_order_asymmetric _ _ _ N_strict_total_order); done).
  assert (asymmetric (less (A := option N))) as HoN
    by (apply (strict_total_order_asymmetric _ _ _
                 (optional_strict_total_order _ N_strict_total_order)); done).
  repeat apply tuple_cons_less_asymmetric; try done.
  - apply (strict_total_order_asymmetric _ _ _ string_strict_total_order). done.
  - apply float_less_asymmetric.
  - apply (strict_total_order_asymmetric _ _ _ bool_strict_total_order). done.
Qed.

(** X14: on all configurations, a NaN selectivity included, [operator<] is
    irreflexive and asymmetric: no record is less than itself and no two
    records are less than each other. *)
Theorem operator_lt_asymmetric (a b : CalibrationQueryGeneratorPredicateConfiguration) :
  operator_lt a a = false ∧
  (operator_lt a b = true → operator_lt b a = false).
Proof.
  pose proof tie_less_asymmetric as Hasym. unfold operator_lt. split.
  - destruct (less (tie a) (tie a)) eqn:H; [|reflexivity].
    by rewrite (Hasym _ _ H) in H.
  - apply Hasym.
Qed.

Lemma operator_lt_asymmetric_witness :
  operator_lt (half_configuration "orders" 10) (half_configuration "lineitem" 1000) = false.
Proof.
  exact (proj2 (operator_lt_asymmetric (half_configuration "lineitem" 1000)
                  (half_configuration "orders" 10)) eq_refl).
Defined.

Lemma tie_equal_to_sym (a b : CalibrationQueryGeneratorPredicateConfiguration) :
  operator_eq a b = true → operator_eq b a = true.
Proof.
  intros Heq. destruct (operator_eq_valid a b Heq) as [Ha Hb].
  pose proof tie_strict_total_order as [Htri _ _ _ _]. unfold operator_eq in *.
  destruct (exactly_one_cases _ _ _ (Htri (tie a) (tie b) Ha Hb))
    as [(_&H&_)|[(H1&_&H2)|(_&H&_)]]; try congruence.
  destruct (exactly_one_cases _ _ _ (Htri (tie b) (tie a) Hb Ha))
    as [(H&_)|[(_&H&_)|(_&_&H)]]; congruence.
Qed.

(** X15: [operator==] and [operator<] fit together on all configurations:
    two records that are equal are not less than each other, and replacing
    both sides of [a < b] by equal records does not change the answer. *)
Theorem operator_lt_respects_operator_eq
    (a a' b b' : CalibrationQueryGeneratorPredicateConfiguration) :
  (operator_eq a b = true → operator_lt a b = false ∧ operator_lt b a = false) ∧
  (operator_eq a a' = true → operator_eq b b' = true →
   operator_lt a b = operator_lt a' b').
Proof.
  pose proof tie_strict_total_order as [Htri _ _ Hle Hel]. split.
  - intros Heq. destruct (operator_eq_valid a b Heq) as [Ha Hb].
    unfold operator_eq, operator_lt in *.
    destruct (exactly_one_cases _ _ _ (Htri (tie a) (tie b) Ha Hb))
      as [(_&H&_)|[(H1&_&H2)|(_&H&_)]]; try congruence. by split.
  - intros Ha Hb.
    destruct (operator_eq_valid a a' Ha) as [Hva Hva'].
    destruct (operator_eq_valid b b' Hb) as [Hvb Hvb'].
    pose proof (tie_equal_to_sym a a' Ha) as Ha'.
    pose proof (tie_equal_to_sym b b' Hb) as Hb'.
    unfold operator_eq, operator_lt in *.
    destruct (less (tie a) (tie b)) eqn:Hab, (less (tie a') (tie b')) eqn:Hab';
      try reflexivity.
    + pose proof (Hel (tie a') (tie a) (tie b) Hva' Hva Hvb Ha' Hab) as H1.
      pose proof (Hle (tie a') (tie b) (tie b') Hva' Hvb Hvb' H1 Hb). congruence.
    + pose proof (Hel (tie a) (tie a') (tie b') Hva Hva' Hvb' Ha Hab') as H1.
      pose proof (Hle (tie a) (tie b') (tie b) Hva Hvb' Hvb H1 Hb'). congruence.
Qed.

Lemma operator_lt_respects_operator_eq_witness :
  operator_lt (configuration_with (S754_zero false) 10) (half_configuration "orders" 10)
  = operator_lt (configuration_with (S754_zero true) 10) (half_configuration "orders" 10).
Proof.
  exact (proj2 (operator_lt_respects_operator_eq
                  (configuration_with (S754_zero false) 10)
                  (configuration_with (S754_zero true) 10)
                  (half_configuration "orders" 10) (half_configuration "orders" 10))
           eq_refl eq_refl).
Defined.

